(** * go-leadsdb: a shallow embedding of the client's retry pipeline,
      paged fetcher and streaming batcher.

    Conventions.
    - Go's [int], [int64] and [time.Duration] are 64-bit two's complement
      integers; they are modelled as [Z], and every operation that can leave
      the range is passed through [wrap64].
    - A Go [error] value is a value of the inductive type [error]; [nil] is
      [None] in [option error].
    - Packages outside the repository (encoding/json, net/http, net/url,
      strconv) are the fields of the class [Externals].
    - The network, the context and the scheduler are oracles: the functions
      below are deterministic once the oracle is fixed, and they return the
      list of effects they performed next to their result. *)

From Stdlib Require Import ZArith List String Bool Lia Arith.
From Stdlib Require Import DecimalString.
From Stdlib Require DecimalPos DecimalZ.
Import ListNotations.

Local Open Scope string_scope.
Local Open Scope list_scope.
Local Open Scope Z_scope.

Infix "+++" := String.append (right associativity, at level 60).

(* ------------------------------------------------------------------ *)
(** ** net/http status codes used by the client *)

Module http.
Definition StatusOK : Z := 200.
Definition StatusMultipleChoices : Z := 300.
Definition StatusUnauthorized : Z := 401.
Definition StatusForbidden : Z := 403.
Definition StatusNotFound : Z := 404.
Definition StatusTooManyRequests : Z := 429.
Definition StatusInternalServerError : Z := 500.
Definition StatusBadGateway : Z := 502.
Definition StatusServiceUnavailable : Z := 503.
Definition StatusGatewayTimeout : Z := 504.

Definition MethodGet := "GET".
Definition MethodPost := "POST".
Definition MethodDelete := "DELETE".
End http.

(* ------------------------------------------------------------------ *)
(** ** 64-bit integers and durations *)

Definition wrap64 (z : Z) : Z := (z + 2 ^ 63) mod 2 ^ 64 - 2 ^ 63.

Module time.
Definition Millisecond : Z := 1000000.
Definition Second : Z := 1000000000.
End time.

Definition DefaultBaseURL := "https://getleadsdb.com/api/v1".
Definition DefaultMaxRetries : Z := 3.
Definition DefaultBaseDelay : Z := 1 * time.Second.
Definition DefaultFlushTimeout : Z := 2 * time.Second.
Definition maxJitter : Z := 500 * time.Millisecond.
Definition maxBatchSize : Z := 100.

(** [fmt.Sprintf] with the verb [%d]. *)
Definition fmt_d (z : Z) : string := NilZero.string_of_int (Z.to_int z).

(* ------------------------------------------------------------------ *)
(** ** Errors (errors.go) *)

Record APIError := mkAPIError {
  StatusCode : Z;
  Code : string;
  Message : string;
  RetryAfter : Z
}.

(** The five sentinels are package variables made by [errors.New]; two
    error values are [==] in Go when they are the same pointer, so each
    sentinel is a constructor of its own.  [ErrText] stands for an error
    made on the spot by [errors.New] or [fmt.Errorf], [ErrExt] for an error
    that a library (context, net/http, io, encoding/json) returned, and
    [ErrAPI] for a [*APIError]. *)
Inductive error :=
| ErrNotFound
| ErrUnauthorized
| ErrRateLimited
| ErrForbidden
| ErrInternal
| ErrText (msg : string)
| ErrExt (what : string)
| ErrAPI (e : APIError).

Definition is_ErrNotFound (t : error) : bool :=
  match t with ErrNotFound => true | _ => false end.
Definition is_ErrUnauthorized (t : error) : bool :=
  match t with ErrUnauthorized => true | _ => false end.
Definition is_ErrRateLimited (t : error) : bool :=
  match t with ErrRateLimited => true | _ => false end.
Definition is_ErrForbidden (t : error) : bool :=
  match t with ErrForbidden => true | _ => false end.
Definition is_ErrInternal (t : error) : bool :=
  match t with ErrInternal => true | _ => false end.

(** [func (e *APIError) Is(target error) bool] *)
Definition Is (e : APIError) (target : error) : bool :=
  if StatusCode e =? http.StatusUnauthorized then is_ErrUnauthorized target
  else if StatusCode e =? http.StatusForbidden then is_ErrForbidden target
  else if StatusCode e =? http.StatusNotFound then is_ErrNotFound target
  else if StatusCode e =? http.StatusTooManyRequests then is_ErrRateLimited target
  else if StatusCode e =? http.StatusInternalServerError then is_ErrInternal target
  else false.

(* ------------------------------------------------------------------ *)
(** ** Retry classifier and backoff policy (client.go) *)

(** [func (c *Client) shouldRetry(statusCode int, err error) bool] *)
Definition shouldRetry (statusCode : Z) (err : option error) : bool :=
  match err with
  | Some _ => true
  | None =>
      if statusCode =? http.StatusTooManyRequests then true
      else if statusCode =? http.StatusInternalServerError then true
      else if statusCode =? http.StatusBadGateway then true
      else if statusCode =? http.StatusServiceUnavailable then true
      else if statusCode =? http.StatusGatewayTimeout then true
      else false
  end.

(** [x << n] on [time.Duration]: a negative count panics ([None]), bits
    shifted past bit 63 are lost. *)
Definition shl64 (x n : Z) : option Z :=
  if n <? 0 then None else Some (wrap64 (Z.shiftl x n)).

(** The duration [backoff] sleeps for, given the value [jitter] drawn by
    [rand.Int64N(int64(maxJitter))]:
<<
      if retryAfter > 0 { delay = time.Duration(retryAfter) * time.Second }
      else              { delay = DefaultBaseDelay << attempt }
      delay += jitter
>> *)
Definition backoff_delay (attempt retryAfter jitter : Z) : option Z :=
  let base :=
    if 0 <? retryAfter then Some (wrap64 (retryAfter * time.Second))
    else shl64 DefaultBaseDelay attempt in
  match base with
  | Some delay => Some (wrap64 (delay + jitter))
  | None => None
  end.

(** What [rand.Int64N(n)] may return. *)
Definition Int64N_range (n r : Z) : Prop := 0 <= r < n.

(* ------------------------------------------------------------------ *)
(** ** Domain records (lead.go) *)

(** Of a [Lead] the client itself reads [Name] and [Source] only; the
    other fields (location, contact, metrics, attributes, notes, timestamps)
    travel through it untouched and are kept together in [LeadRest]. *)
Record Lead := mkLead {
  LeadID : string;
  Name : string;
  Source : string;
  LeadRest : string
}.

Record BulkLeadResult := mkBulkLeadResult {
  blr_Index : Z;
  blr_ID : string;
  blr_CreatedAt : Z
}.

Record BulkLeadError := mkBulkLeadError {
  ble_Index : Z;
  ble_Message : string
}.

Record BulkCreateResult := mkBulkCreateResult {
  Total : Z;
  Success : Z;
  Failed : Z;
  Created : list BulkLeadResult;
  Errors : list BulkLeadError
}.

Record ListResult := mkListResult {
  Leads : list Lead;
  Count : Z;
  HasMore : bool;
  NextCursor : string
}.

(** The zero values [var result BulkCreateResult] and [var result ListResult]. *)
Definition zero_Lead : Lead := mkLead "" "" "" "".
Definition zero_BulkCreateResult : BulkCreateResult := mkBulkCreateResult 0 0 0 [] [].
Definition zero_ListResult : ListResult := mkListResult [] 0 false "".

(** The request bodies handed to [do]. *)
Inductive Body :=
| BodyLead (lead : Lead)
| BodyLeads (leads : list Lead).

(* ------------------------------------------------------------------ *)
(** ** The packages the client calls *)

Class Externals := {
  (** [json.Marshal(body)] *)
  json_Marshal : Body -> error + string;
  (** [json.Unmarshal(respBody, apiErr)] on a fresh [APIError]: the [Code]
      and [Message] it leaves behind (its error is dropped by the caller;
      [StatusCode] and [RetryAfter] carry the tag [json:"-"]). *)
  json_Unmarshal_APIError : string -> string * string;
  json_Unmarshal_Lead : string -> error + Lead;
  json_Unmarshal_ListResult : string -> error + ListResult;
  json_Unmarshal_BulkCreateResult : string -> error + BulkCreateResult;
  (** [http.StatusText] *)
  http_StatusText : Z -> string;
  (** [http.NewRequestWithContext(ctx, method, url, body)]: its error *)
  http_NewRequest : string -> string -> option error;
  (** [strconv.Atoi] *)
  strconv_Atoi : string -> option Z;
  (** [url.Values.Encode] *)
  url_Encode : list (string * string) -> string
}.

(* ------------------------------------------------------------------ *)
(** ** The network and the context, as an oracle *)

(** What one pass through the loop body of [do] meets after the request has
    been built: [httpClient.Do] fails, or [io.ReadAll] fails, or a response
    with its status, its [Retry-After] header (empty when absent) and its
    body has been read. *)
Inductive RoundTrip :=
| TransportFailure (err : error)
| ReadFailure (status : Z) (err : error)
| Response (status : Z) (retryAfter : string) (body : string).

Record Attempt := mkAttempt {
  ctx_Err : option error;      (* [ctx.Err()] at the top of the loop body *)
  round_trip : RoundTrip
}.

(** One logical request: the oracle is asked by attempt number. *)
Definition Network := Z -> Attempt.

(* ------------------------------------------------------------------ *)
(** ** Client and options *)

Record Client := mkClient {
  baseURL : string;
  apiKey : string;
  maxRetries : Z
}.

Definition Option := Client -> Client.

Definition WithBaseURL (url : string) : Option :=
  fun c => mkClient url (apiKey c) (maxRetries c).

Definition WithMaxRetries (n : Z) : Option :=
  fun c => mkClient (baseURL c) (apiKey c) n.

Definition New (key : string) (opts : list Option) : Client :=
  fold_left (fun c opt => opt c) opts (mkClient DefaultBaseURL key DefaultMaxRetries).

(* ------------------------------------------------------------------ *)
(** ** The resilient request executor *)

Inductive Event :=
| EvRequest (attempt : Z) (method url : string) (body : option string)
| EvBackoff (attempt retryAfter : Z).

(** The return value of [do]: [nil] with the result left as it was
    ([Done None]) or decoded ([Done (Some r)]), or an error. *)
Inductive Outcome (R : Type) :=
| Done (decoded : option R)
| Fail (err : error).
Arguments Done {R} decoded.
Arguments Fail {R} err.

Definition nonempty (s : string) : bool := negb (String.eqb s "").

Section Executor.
Context `{Externals}.

(** The structured error [do] builds from a response outside 2xx. *)
Definition build_APIError (status : Z) (retryAfter body : string) : APIError :=
  let cm := if nonempty body then json_Unmarshal_APIError body else ("", "") in
  let msg := if String.eqb (snd cm) "" then http_StatusText status else snd cm in
  let ra :=
    if status =? http.StatusTooManyRequests then
      if nonempty retryAfter then
        match strconv_Atoi retryAfter with
        | Some seconds => seconds
        | None => 0
        end
      else 0
    else 0 in
  mkAPIError status (fst cm) msg ra.

Definition is_2xx (status : Z) : bool :=
  (http.StatusOK <=? status) && (status <? http.StatusMultipleChoices).

Context {R : Type}.
Variable c : Client.
Variable net : Network.
Variables method path : string.
Variable bodyData : option string.
(** [None] when [result == nil], else the decoder for the result's type. *)
Variable decode : option (string -> error + R).

Definition after (evs : list Event) (run : Outcome R * list Event)
  : Outcome R * list Event :=
  (fst run, evs ++ snd run).

(** [for attempt := range c.maxRetries { ... }; return lastErr], with
    [remaining] the passes still to make. *)
Fixpoint do_loop (remaining : nat) (attempt : Z) (lastErr : option error)
  : Outcome R * list Event :=
  match remaining with
  | O => (match lastErr with Some e => Fail e | None => Done None end, [])
  | S k =>
      match ctx_Err (net attempt) with
      | Some err => (Fail err, [])
      | None =>
      match http_NewRequest method (baseURL c +++ path) with
      | Some err => (Fail err, [])
      | None =>
      let req := EvRequest attempt method (baseURL c +++ path) bodyData in
      match round_trip (net attempt) with
      | TransportFailure err =>
          if negb (shouldRetry 0 (Some err)) then (Fail err, [req])
          else after [req; EvBackoff attempt 0]
                     (do_loop k (attempt + 1) (Some err))
      | ReadFailure _ err => (Fail err, [req])
      | Response status retryAfter body =>
          if is_2xx status then
            match decode with
            | Some dec =>
                if nonempty body then
                  match dec body with
                  | inl err => (Fail err, [req])
                  | inr r => (Done (Some r), [req])
                  end
                else (Done None, [req])
            | None => (Done None, [req])
            end
          else
            let apiErr := build_APIError status retryAfter body in
            if negb (shouldRetry status None) then (Fail (ErrAPI apiErr), [req])
            else after [req; EvBackoff attempt (RetryAfter apiErr)]
                       (do_loop k (attempt + 1) (Some (ErrAPI apiErr)))
      end
      end
      end
  end.
End Executor.

(** The head of [do]:
<<
      var bodyData []byte
      if body != nil { bodyData, err = json.Marshal(body); if err != nil { return err } }
>> *)
Definition marshal `{Externals} (body : option Body) : error + option string :=
  match body with
  | Some b =>
      match json_Marshal b with
      | inl err => inl err
      | inr data => inr (Some data)
      end
  | None => inr None
  end.

(** [func (c *Client) do(ctx, method, path string, body, result any) error] *)
Definition do `{Externals} {R : Type} (c : Client) (net : Network)
    (method path : string) (body : option Body)
    (decode : option (string -> error + R)) : Outcome R * list Event :=
  match marshal body with
  | inl err => (Fail err, [])
  | inr bodyData =>
      do_loop c net method path bodyData decode (Z.to_nat (maxRetries c)) 0 None
  end.

(* ------------------------------------------------------------------ *)
(** ** Operations built on [do] *)

Definition len {A : Type} (l : list A) : Z := Z.of_nat (List.length l).

Section Operations.
Context `{Externals}.
Variable c : Client.

(** [func (c *Client) Get(ctx, id string) Lead or error] *)
Definition Get (net : Network) (id : string) : (error + Lead) * list Event :=
  if String.eqb id "" then (inl (ErrText "leadsdb: id is required"), [])
  else
    let run := do c net http.MethodGet ("/leads/" +++ id) None
                  (Some json_Unmarshal_Lead) in
    match fst run with
    | Fail err => (inl err, snd run)
    | Done None => (inr zero_Lead, snd run)
    | Done (Some lead) => (inr lead, snd run)
    end.

(** [func (c *Client) Delete(ctx, id string) error] *)
Definition Delete (net : Network) (id : string) : option error * list Event :=
  if String.eqb id "" then (Some (ErrText "leadsdb: id is required"), [])
  else
    let run := do (R := unit) c net http.MethodDelete ("/leads/" +++ id)
                  None None in
    match fst run with
    | Fail err => (Some err, snd run)
    | Done _ => (None, snd run)
    end.

(** The loop [for i, lead := range leads] of [BulkCreate]. *)
Fixpoint validate_leads (i : Z) (leads : list Lead) : option error :=
  match leads with
  | [] => None
  | lead :: rest =>
      if String.eqb (Name lead) "" then
        Some (ErrText ("leadsdb: lead at index " +++ fmt_d i +++
                       ": name is required"))
      else if String.eqb (Source lead) "" then
        Some (ErrText ("leadsdb: lead at index " +++ fmt_d i +++
                       ": source is required"))
      else validate_leads (i + 1) rest
  end.

(** [func (c *Client) BulkCreate(ctx, leads []*Lead) BulkCreateResult or error] *)
Definition BulkCreate (net : Network) (leads : list Lead)
  : (error + BulkCreateResult) * list Event :=
  if len leads =? 0 then (inl (ErrText "leadsdb: leads is required"), [])
  else if maxBatchSize <? len leads then
    (inl (ErrText "leadsdb: maximum 100 leads allowed"), [])
  else
    match validate_leads 0 leads with
    | Some err => (inl err, [])
    | None =>
        let run := do c net http.MethodPost "/leads/batch"
                      (Some (BodyLeads leads))
                      (Some json_Unmarshal_BulkCreateResult) in
        match fst run with
        | Fail err => (inl err, snd run)
        | Done None => (inr zero_BulkCreateResult, snd run)
        | Done (Some result) => (inr result, snd run)
        end
    end.
End Operations.

(* ------------------------------------------------------------------ *)
(** ** Listing (client.go, filter.go) *)

Record filter := mkFilter {
  logic : string;
  operator : string;
  field : string;
  value : string
}.

(** [func (f filter) String() string] *)
Definition filter_String (f : filter) : string :=
  if String.eqb (value f) "" then
    logic f +++ "." +++ operator f +++ "." +++ field f
  else
    logic f +++ "." +++ operator f +++ "." +++ field f +++ "." +++ value f.

Record listConfig := mkListConfig {
  limit : Z;
  cursor : string;
  sortBy : string;
  sortOrder : string;
  filters : list filter
}.

Inductive ListOption :=
| limitOption (n : Z)
| cursorOption (s : string)
| sortOption (fld order : string)
| FilterOption (f : filter).

Definition Limit (n : Z) : ListOption := limitOption n.
Definition Cursor (s : string) : ListOption := cursorOption s.

Definition apply (o : ListOption) (cfg : listConfig) : listConfig :=
  match o with
  | limitOption n =>
      mkListConfig n (cursor cfg) (sortBy cfg) (sortOrder cfg) (filters cfg)
  | cursorOption s =>
      mkListConfig (limit cfg) s (sortBy cfg) (sortOrder cfg) (filters cfg)
  | sortOption fld order =>
      mkListConfig (limit cfg) (cursor cfg) fld order (filters cfg)
  | FilterOption f =>
      mkListConfig (limit cfg) (cursor cfg) (sortBy cfg) (sortOrder cfg)
                   (filters cfg ++ [f])
  end.

Definition list_params (cfg : listConfig) : list (string * string) :=
  (if 0 <? limit cfg then [("limit", fmt_d (limit cfg))] else []) ++
  (if nonempty (cursor cfg) then [("cursor", cursor cfg)] else []) ++
  (if nonempty (sortBy cfg) then
     ("sort_by", sortBy cfg) ::
     (if nonempty (sortOrder cfg) then [("sort_order", sortOrder cfg)] else [])
   else []) ++
  map (fun f => ("filter", filter_String f)) (filters cfg).

Section Listing.
Context `{Externals}.
Variable c : Client.

Definition list_path (opts : list ListOption) : string :=
  let cfg := fold_left (fun cfg o => apply o cfg) opts
                       (mkListConfig 0 "" "" "" []) in
  match list_params cfg with
  | [] => "/leads"
  | params => "/leads" +++ "?" +++ url_Encode params
  end.

(** [func (c *Client) List(ctx, opts ...ListOption) ListResult or error] *)
Definition List (net : Network) (opts : list ListOption)
  : (error + ListResult) * list Event :=
  let run := do c net http.MethodGet (list_path opts) None
                (Some json_Unmarshal_ListResult) in
  match fst run with
  | Fail err => (inl err, snd run)
  | Done None => (inr zero_ListResult, snd run)
  | Done (Some result) => (inr result, snd run)
  end.

(** *** The paged fetcher [iterate]

    [nets n] is the network met by the [n]-th call of [List]; [pull k] is
    what the consumer's [yield] answers to the [k]-th item handed to it
    ([false]: stop). *)
Variable nets : nat -> Network.
Variable pull : nat -> bool.
Variable opts : list ListOption.

Inductive Item :=
| ItemLead (lead : Lead)
| ItemErr (err : error).

Inductive PageEvent :=
| EvList (n : nat) (listOpts : list ListOption)
| EvYield (it : Item).

(** [for i := range result.Leads { if !yield(&result.Leads[i], nil) { return } }]:
    the events, the number of items handed over so far, and whether the
    loop ran to its end. *)
Fixpoint yield_leads (leads : list Lead) (k : nat)
  : list PageEvent * nat * bool :=
  match leads with
  | [] => ([], k, true)
  | lead :: rest =>
      if pull k then
        let '(evs, k', ok) := yield_leads rest (S k) in
        (EvYield (ItemLead lead) :: evs, k', ok)
      else ([EvYield (ItemLead lead)], S k, false)
  end.

Definition page_opts (cur : string) : list ListOption :=
  if nonempty cur then opts ++ [Cursor cur] else opts.

(** The [for] loop of [iterate], entered for the [n]-th page with the
    cursor [cur]; [fuel] bounds the number of pages.  The boolean says
    whether the function returned. *)
Fixpoint iterate_from (fuel n : nat) (cur : string) (k : nat)
  : list PageEvent * bool :=
  match fuel with
  | O => ([], false)
  | S fuel' =>
      let listOpts := page_opts cur in
      match fst (List (nets n) listOpts) with
      | inl err => ([EvList n listOpts; EvYield (ItemErr err)], true)
      | inr result =>
          let '(evs, k', ok) := yield_leads (Leads result) k in
          if negb ok then (EvList n listOpts :: evs, true)
          else if negb (HasMore result) then (EvList n listOpts :: evs, true)
          else
            let rest := iterate_from fuel' (S n) (NextCursor result) k' in
            (EvList n listOpts :: evs ++ fst rest, snd rest)
      end
  end.

Definition iterate (fuel : nat) : list PageEvent * bool :=
  iterate_from fuel 0 "" 0.
End Listing.

(** The items a run produced, and the page requests it made. *)
Definition produced (evs : list PageEvent) : list Item :=
  flat_map (fun e => match e with EvYield it => [it] | EvList _ _ => [] end) evs.

Definition page_requests (evs : list PageEvent) : list (list ListOption) :=
  flat_map (fun e => match e with EvList _ o => [o] | EvYield _ => [] end) evs.

(* ------------------------------------------------------------------ *)
(** ** The streaming batcher [BulkCreateFromChan]

    The goroutine's state, with the two outlets as the lists of values that
    were delivered on them.  [calls] counts the calls of [BulkCreate] and
    [sends] the [select]s that try to deliver a value, so that the oracles
    can be asked in order; [submitted] logs the batches handed to
    [BulkCreate]. *)

Record Batcher := mkBatcher {
  batch : list Lead;
  timer_armed : bool;
  results : list BulkLeadResult;
  errs : list error;
  calls : nat;
  sends : nat;
  submitted : list (list Lead)
}.

Definition init : Batcher := mkBatcher [] false [] [] 0 0 [].

Definition set_batch (b : list Lead) (st : Batcher) : Batcher :=
  mkBatcher b (timer_armed st) (results st) (errs st) (calls st) (sends st)
            (submitted st).

Definition set_timer (a : bool) (st : Batcher) : Batcher :=
  mkBatcher (batch st) a (results st) (errs st) (calls st) (sends st)
            (submitted st).

(** The case [<-ctx.Done()] of a sending [select] was taken. *)
Definition send_lost (st : Batcher) : Batcher :=
  mkBatcher (batch st) (timer_armed st) (results st) (errs st) (calls st)
            (S (sends st)) (submitted st).

Definition send_result (r : BulkLeadResult) (st : Batcher) : Batcher :=
  mkBatcher (batch st) (timer_armed st) (results st ++ [r]) (errs st)
            (calls st) (S (sends st)) (submitted st).

Definition send_err (e : error) (st : Batcher) : Batcher :=
  mkBatcher (batch st) (timer_armed st) (results st) (errs st ++ [e])
            (calls st) (S (sends st)) (submitted st).

Definition called (st : Batcher) : Batcher :=
  mkBatcher (batch st) (timer_armed st) (results st) (errs st)
            (S (calls st)) (sends st) (submitted st ++ [batch st]).

(** [fmt.Errorf("index %d: %s", e.Index, e.Message)] *)
Definition index_error (e : BulkLeadError) : error :=
  ErrText ("index " +++ fmt_d (ble_Index e) +++ ": " +++ ble_Message e).

(** The cases the main [select] of the goroutine can take. *)
Inductive Select :=
| SelCtxDone
| SelTimer
| SelLead (lead : Lead)
| SelClosed.

Section Batching.
Context `{Externals}.
Variable c : Client.
(** [nets n]: the network met by the [n]-th call of [BulkCreate]. *)
Variable nets : nat -> Network.
(** [send_ok k]: the [k]-th sending [select] delivered its value
    ([false]: it took [<-ctx.Done()] instead). *)
Variable send_ok : nat -> bool.

(** [for i := range result.Created { select { case results <- ...: case <-ctx.Done(): return } }] *)
Fixpoint send_results (rs : list BulkLeadResult) (st : Batcher)
  : Batcher * bool :=
  match rs with
  | [] => (st, true)
  | r :: rest =>
      if send_ok (sends st) then send_results rest (send_result r st)
      else (send_lost st, false)
  end.

(** [for i := range result.Errors { select { case errs <- fmt.Errorf(...): case <-ctx.Done(): return } }] *)
Fixpoint send_errors (es : list BulkLeadError) (st : Batcher)
  : Batcher * bool :=
  match es with
  | [] => (st, true)
  | e :: rest =>
      if send_ok (sends st) then send_errors rest (send_err (index_error e) st)
      else (send_lost st, false)
  end.

(** The closure [flush]. *)
Definition flush (st : Batcher) : Batcher :=
  match batch st with
  | [] => st
  | _ :: _ =>
      match fst (BulkCreate c (nets (calls st)) (batch st)) with
      | inl err =>
          let st1 := called st in
          let st2 := if send_ok (sends st1) then send_err err st1
                     else send_lost st1 in
          set_batch [] st2
      | inr result =>
          let '(st1, ok1) := send_results (Created result) (called st) in
          if negb ok1 then st1
          else
            let '(st2, ok2) := send_errors (Errors result) st1 in
            if negb ok2 then st2
            else set_batch [] st2
      end
  end.

(** [batch = append(batch, lead); if len(batch) == 1 { timer.Reset(...) }] *)
Definition accept (lead : Lead) (st : Batcher) : Batcher :=
  let st1 := set_batch (batch st ++ [lead]) st in
  if len (batch st1) =? 1 then set_timer true st1 else st1.

(** One pass through the goroutine's [for { select { ... } }]; the boolean
    says whether the goroutine returned. *)
Definition step (st : Batcher) (sel : Select) : Batcher * bool :=
  match sel with
  | SelCtxDone => (st, true)
  | SelTimer => (flush (set_timer false st), false)
  | SelLead lead =>
      let st1 := accept lead st in
      if maxBatchSize <=? len (batch st1)
      then (flush (set_timer false st1), false)
      else (st1, false)
  | SelClosed => (flush (set_timer false st), true)
  end.

Fixpoint run (sched : list Select) (st : Batcher) : Batcher * bool :=
  match sched with
  | [] => (st, false)
  | sel :: rest =>
      let '(st', returned) := step st sel in
      if returned then (st', true) else run rest st'
  end.

(** The states the goroutine can be in at the top of its loop. *)
Definition reachable (st : Batcher) : Prop :=
  exists sched, run sched init = (st, false).
End Batching.

(* ------------------------------------------------------------------ *)
(** ** Vocabulary of the statements *)

(** The category a status code stands for. *)
Definition category (status : Z) (target : error) : Prop :=
  (status = 404 /\ target = ErrNotFound) \/
  (status = 401 /\ target = ErrUnauthorized) \/
  (status = 403 /\ target = ErrForbidden) \/
  (status = 429 /\ target = ErrRateLimited) \/
  (status = 500 /\ target = ErrInternal).

(** The transient status codes. *)
Definition transient (statusCode : Z) : Prop :=
  statusCode = 429 \/ statusCode = 500 \/ statusCode = 502 \/
  statusCode = 503 \/ statusCode = 504.

(** The error a round trip leaves in [lastErr] and the hint it passes to
    [backoff], when the classifier asks for a retry. *)
Definition retriable_failure `{Externals} (rt : RoundTrip) : option (error * Z) :=
  match rt with
  | TransportFailure err => Some (err, 0)
  | ReadFailure _ _ => None
  | Response status retryAfter body =>
      if is_2xx status then None
      else if shouldRetry status None then
        let apiErr := build_APIError status retryAfter body in
        Some (ErrAPI apiErr, RetryAfter apiErr)
      else None
  end.

(** A stand-in for the external packages, used to run the model on concrete
    inputs: marshalling, the decoders of the two list-shaped results and the
    header parser are given, the rest is trivial. *)
Definition stub_externals
    (marshal_body : Body -> error + string)
    (atoi : string -> option Z)
    (unmarshal_list : string -> error + ListResult)
    (unmarshal_bulk : string -> error + BulkCreateResult) : Externals :=
  {| json_Marshal := marshal_body;
     json_Unmarshal_APIError := fun _ => ("", "");
     json_Unmarshal_Lead := fun _ => inr zero_Lead;
     json_Unmarshal_ListResult := unmarshal_list;
     json_Unmarshal_BulkCreateResult := unmarshal_bulk;
     http_StatusText := fun status => "status " +++ fmt_d status;
     http_NewRequest := fun _ _ => None;
     strconv_Atoi := atoi;
     url_Encode := fun params =>
       String.concat "&" (map (fun kv => fst kv +++ "=" +++ snd kv) params) |}.

Definition plain_externals : Externals :=
  stub_externals (fun _ => inr "{}") (fun _ => None)
                 (fun _ => inr zero_ListResult)
                 (fun _ => inr zero_BulkCreateResult).

(** A server that answers every attempt with the same status and an empty
    body, under a context that is never cancelled. *)
Definition always (status : Z) : Network :=
  fun _ => mkAttempt None (Response status "" "").

(** External packages whose [json.Marshal] rejects every body, as it does
    for a lead whose rating is NaN or whose attribute holds a channel. *)
Definition unmarshallable_externals : Externals :=
  stub_externals (fun _ => inl (ErrExt "json: unsupported value: NaN"))
                 (fun _ => None)
                 (fun _ => inr zero_ListResult)
                 (fun _ => inr zero_BulkCreateResult).

(** Two pages: [A, B] with more to come under the cursor [X], then [C]. *)
Definition leadA : Lead := mkLead "1" "A" "web" "".
Definition leadB : Lead := mkLead "2" "B" "web" "".
Definition leadC : Lead := mkLead "3" "C" "web" "".

Definition two_page_externals : Externals :=
  stub_externals (fun _ => inr "{}") (fun _ => None)
                 (fun body =>
                    if String.eqb body "page1"
                    then inr (mkListResult [leadA; leadB] 2 true "X")
                    else inr (mkListResult [leadC] 1 false ""))
                 (fun _ => inr zero_BulkCreateResult).

Definition two_page_nets : nat -> Network :=
  fun n _ => mkAttempt None
               (Response 200 "" (if Nat.eqb n 0 then "page1" else "page2")).

Definition yielded (leads : list Lead) : list PageEvent :=
  map (fun lead => EvYield (ItemLead lead)) leads.

Definition is_error_item (ev : PageEvent) : Prop :=
  exists err, ev = EvYield (ItemErr err).

(** A server whose bulk response reports a single created lead and no
    error, whatever the size of the batch it was sent. *)
Definition created0 : BulkLeadResult := mkBulkLeadResult 0 "id-0" 1700000000.

Definition one_created_externals : Externals :=
  stub_externals (fun _ => inr "{}") (fun _ => None)
                 (fun _ => inr zero_ListResult)
                 (fun _ => inr (mkBulkCreateResult 1 1 0 [created0] [])).

Definition ok_nets : nat -> Network :=
  fun _ _ => mkAttempt None (Response 200 "" "ok").

(** A context that is already cancelled when [do] looks at it. *)
Definition cancelled_nets : nat -> Network :=
  fun _ _ => mkAttempt (Some (ErrExt "context canceled")) (Response 200 "" "ok").

(** No sending [select] is ever pre-empted by cancellation. *)
Definition always_delivered (send_ok : nat -> bool) : Prop :=
  forall k, send_ok k = true.

(** The batch a pass of the loop would hand to [flush]. *)
Definition pending (st : Batcher) (sel : Select) : list Lead :=
  match sel with
  | SelLead lead => batch st ++ [lead]
  | _ => batch st
  end.

(** When a pass of the loop submits a batch: the record just received is the
    hundredth, or the timer fired or the input closed on a batch that is
    not empty. *)
Definition flush_due (st : Batcher) (sel : Select) : bool :=
  match sel with
  | SelCtxDone => false
  | SelTimer => negb (len (batch st) =? 0)
  | SelLead _ => len (batch st) + 1 =? maxBatchSize
  | SelClosed => negb (len (batch st) =? 0)
  end.

(* ------------------------------------------------------------------ *)
(** ** Export (client.go) *)

(** What [Export] meets after its request has been built: [httpClient.Do]
    fails, or a response arrives.  For a status in 2xx [body] is the stream
    handed back to the caller; otherwise it is what [io.ReadAll] returned
    (its error is dropped by [Export]). *)
Inductive ExportTrip :=
| ExportFailure (err : error)
| ExportResponse (status : Z) (body : string).

(** [func (c *Client) Export(ctx, format ExportFormat) (io.ReadCloser, error)] *)
Definition Export `{Externals} (c : Client) (trip : ExportTrip) (format : string)
  : (error + string) * list Event :=
  let format := if String.eqb format "" then "csv" else format in
  let url := baseURL c +++ "/leads/export?format=" +++ format in
  match http_NewRequest http.MethodPost url with
  | Some err => (inl err, [])
  | None =>
      let req := EvRequest 0 http.MethodPost url None in
      match trip with
      | ExportFailure err => (inl err, [req])
      | ExportResponse status body =>
          if is_2xx status then (inr body, [req])
          else
            let cm := if nonempty body then json_Unmarshal_APIError body
                      else ("", "") in
            let msg := if String.eqb (snd cm) "" then http_StatusText status
                       else snd cm in
            (inl (ErrAPI (mkAPIError status (fst cm) msg 0)), [req])
      end
  end.

(* ------------------------------------------------------------------ *)
(** ** The push-based fetcher [IteratorChan]

    The goroutine ranges over [iterate] with a body that sends each item on
    its outlet inside a [select]; the body returns, and so stops [iterate],
    when the [select] takes [<-ctx.Done()].  [send_ok k] says whether the
    [k]-th of these [select]s delivered its value.  [deliver] walks the
    events of the underlying [iterate] and collects what reached the two
    outlets. *)
Fixpoint deliver (send_ok : nat -> bool) (evs : list PageEvent) (k : nat)
  : list Lead * list error :=
  match evs with
  | [] => ([], [])
  | EvList _ _ :: rest => deliver send_ok rest k
  | EvYield (ItemLead lead) :: rest =>
      if send_ok k then
        let out := deliver send_ok rest (S k) in (lead :: fst out, snd out)
      else ([], [])
  | EvYield (ItemErr err) :: _ =>
      if send_ok k then ([], [err]) else ([], [])
  end.

Definition IteratorChan `{Externals} (c : Client) (nets : nat -> Network)
    (send_ok : nat -> bool) (opts : list ListOption) (fuel : nat)
  : list Lead * list error :=
  deliver send_ok (fst (iterate c nets send_ok opts fuel)) 0.

(* ------------------------------------------------------------------ *)
(** ** Vocabulary of the further statements *)

(** The requests and the waits in a trace of [do]. *)
Definition is_request (ev : Event) : bool :=
  match ev with EvRequest _ _ _ _ => true | EvBackoff _ _ => false end.

Definition requests (evs : list Event) : nat :=
  List.length (List.filter is_request evs).

Definition waits (evs : list Event) : nat :=
  List.length (List.filter (fun ev => negb (is_request ev)) evs).

(** An event of a pass numbered from [lo] to below [hi], whose request is
    the given one. *)
Definition event_of_pass (method url : string) (bodyData : option string)
    (lo hi : Z) (ev : Event) : Prop :=
  match ev with
  | EvRequest a m u b =>
      lo <= a < hi /\ m = method /\ u = url /\ b = bodyData
  | EvBackoff a _ => lo <= a < hi
  end.

(** What [do] answers to a response in 2xx. *)
Definition on_success {R : Type} (decode : option (string -> error + R))
    (body : string) : Outcome R :=
  match decode with
  | Some dec =>
      if nonempty body then
        match dec body with
        | inl err => Fail err
        | inr r => Done (Some r)
        end
      else Done None
  | None => Done None
  end.

(** A lead that passes the checks of [BulkCreate]. *)
Definition valid_lead (lead : Lead) : Prop :=
  Name lead <> "" /\ Source lead <> "".

(** The configuration [List] folds its options into. *)
Definition list_config (opts : list ListOption) : listConfig :=
  fold_left (fun cfg o => apply o cfg) opts (mkListConfig 0 "" "" "" []).

(** The leads and the errors among the items of a run of [iterate]. *)
Definition leads_of (items : list Item) : list Lead :=
  flat_map (fun it => match it with ItemLead l => [l] | ItemErr _ => [] end) items.

Definition errors_of (items : list Item) : list error :=
  flat_map (fun it => match it with ItemErr e => [e] | ItemLead _ => [] end) items.

(** A schedule under which the batcher goroutine keeps running: records
    arrive and the timer fires, the input stays open and the context is not
    seen done by the main [select]. *)
Definition feeding (sched : list Select) : Prop :=
  Forall (fun sel => match sel with
                     | SelLead _ | SelTimer => True
                     | SelCtxDone | SelClosed => False
                     end) sched.

(** The records the goroutine received under a schedule, up to the pass at
    which it returns. *)
Fixpoint received (sched : list Select) : list Lead :=
  match sched with
  | [] => []
  | SelLead lead :: rest => lead :: received rest
  | SelTimer :: rest => received rest
  | SelCtxDone :: _ => []
  | SelClosed :: _ => []
  end.

(** Oracles for concrete runs of [do]: a server that fails once with 503
    and then answers 200; a context cancelled during the first wait; a
    rate-limited server that asks for two seconds. *)
Definition flaky_net : Network :=
  fun a => if a <? 1 then mkAttempt None (Response 503 "" "")
           else mkAttempt None (Response 200 "" "ok").

Definition cancelled_after_first : Network :=
  fun a => if a <? 1 then mkAttempt None (Response 503 "" "")
           else mkAttempt (Some (ErrExt "context canceled")) (Response 200 "" "ok").

Definition hint_externals : Externals :=
  stub_externals (fun _ => inr "{}")
                 (fun s => if String.eqb s "2" then Some 2 else None)
                 (fun _ => inr zero_ListResult)
                 (fun _ => inr zero_BulkCreateResult).

Definition rate_limited : Network :=
  fun _ => mkAttempt None (Response 429 "2" "").

(** A server that answers every listing with the same page, marked as
    having more and without a next cursor. *)
Definition looping_externals : Externals :=
  stub_externals (fun _ => inr "{}") (fun _ => None)
                 (fun _ => inr (mkListResult [leadA] 1 true ""))
                 (fun _ => inr zero_BulkCreateResult).

(** The timer is armed exactly while records are pending. *)
Definition timer_tracks (st : Batcher) : Prop :=
  timer_armed st = true <-> batch st <> [].

(* ------------------------------------------------------------------ *)
(** ** UnixTime (unixtime.go)

    Of a [time.Time] the codec reads and writes the instant only: the
    seconds since the Unix epoch, as [Unix()] returns them, and the
    nanoseconds within the second.  The zero [Time] is midnight of January
    1 of year 1, which is 62135596800 seconds before the epoch. *)

Record Time := mkTime {
  unix_seconds : Z;
  nanoseconds : Z
}.

Definition zero_unix_seconds : Z := -62135596800.

(** [t.IsZero()] *)
Definition Time_IsZero (t : Time) : bool :=
  (unix_seconds t =? zero_unix_seconds) && (nanoseconds t =? 0).

(** [time.Unix(sec, 0)] *)
Definition time_Unix (sec : Z) : Time := mkTime sec 0.

(** [strconv.FormatInt(z, 10)] *)
Definition strconv_FormatInt (z : Z) : string := fmt_d z.

(** [strconv.ParseInt(s, 10, 64)]: an optional sign, then decimal digits
    and nothing else; a value outside 64 bits is an error. *)
Definition strconv_ParseInt (s : string) : option Z :=
  let parsed :=
    match s with
    | EmptyString => None
    | String a rest =>
        if String.eqb (String a "") "+"
        then option_map (fun d => Z.of_int (Decimal.Pos d))
                        (NilZero.uint_of_string rest)
        else option_map Z.of_int (NilZero.int_of_string s)
    end in
  match parsed with
  | Some z => if (- 2 ^ 63 <=? z) && (z <? 2 ^ 63) then Some z else None
  | None => None
  end.

(** [func (t UnixTime) MarshalJSON() ([]byte, error)]; the error is always
    [nil]. *)
Definition UnixTime_MarshalJSON (t : Time) : string :=
  if Time_IsZero t then "null" else strconv_FormatInt (unix_seconds t).

(** [func (t *UnixTime) UnmarshalJSON(data []byte) error], with the value
    the receiver holds afterwards. *)
Definition UnixTime_UnmarshalJSON (data : string) (t : Time) : error + Time :=
  if String.eqb data "null" || Nat.eqb (String.length data) 0 then inr t
  else
    match strconv_ParseInt data with
    | None => inl (ErrExt "strconv.ParseInt: invalid syntax or out of range")
    | Some unix => inr (time_Unix unix)
    end.

(** A server whose response body cannot be read to its end. *)
Definition broken_body : Network :=
  fun _ => mkAttempt None (ReadFailure 503 (ErrExt "unexpected EOF")).

(* ================================================================== *)
(** * Properties *)

(** ** Error categories *)

Ltac case_status :=
  unfold Is, http.StatusUnauthorized, http.StatusForbidden,
    http.StatusNotFound, http.StatusTooManyRequests,
    http.StatusInternalServerError;
  repeat match goal with
         | |- context [?a =? ?b] => destruct (Z.eqb_spec a b)
         end.

Lemma Is_category (e : APIError) (target : error) :
  Is e target = true <-> category (StatusCode e) target.
Proof.
  unfold category. split.
  - case_status; intros Ht; destruct target; cbn in Ht; try discriminate; tauto.
  - intros [[Hs Ht]|[[Hs Ht]|[[Hs Ht]|[[Hs Ht]|[Hs Ht]]]]]; subst target;
      unfold Is; rewrite Hs; reflexivity.
Qed.

Lemma Is_sentinel (e : APIError) (target : error) (status : Z) :
  category status target ->
  (forall s, category s target -> s = status) ->
  (Is e target = true <-> StatusCode e = status).
Proof.
  intros Hc Hu. rewrite Is_category. split.
  - intros Hs. apply Hu. exact Hs.
  - intros <-. exact Hc.
Qed.

(** C9.  Whether an [APIError] matches one of the five named categories is
    decided by its status code alone: it matches not-found exactly for 404,
    unauthorized exactly for 401, forbidden exactly for 403, rate-limited
    exactly for 429 and internal exactly for 500; it matches no other
    target; and the machine code, the message and the retry-after hint play
    no part. *)
Theorem APIError_Is_by_status :
  forall e : APIError,
    (Is e ErrNotFound = true <-> StatusCode e = 404) /\
    (Is e ErrUnauthorized = true <-> StatusCode e = 401) /\
    (Is e ErrForbidden = true <-> StatusCode e = 403) /\
    (Is e ErrRateLimited = true <-> StatusCode e = 429) /\
    (Is e ErrInternal = true <-> StatusCode e = 500) /\
    (forall target, Is e target = true <-> category (StatusCode e) target) /\
    (forall code msg ra target,
       Is (mkAPIError (StatusCode e) code msg ra) target = Is e target).
Proof.
  intros e.
  repeat match goal with
         | |- (Is _ _ = true <-> _) /\ _ =>
             split; [apply Is_sentinel; unfold category;
                     [tauto | intros s Hs; intuition (try discriminate; auto)]|]
         end.
  split; [intros target; apply Is_category|].
  intros code msg ra target. reflexivity.
Qed.

(** ** Retry classifier *)

Lemma shouldRetry_status (statusCode : Z) :
  shouldRetry statusCode None = true <-> transient statusCode.
Proof.
  unfold shouldRetry, transient, http.StatusTooManyRequests,
    http.StatusInternalServerError, http.StatusBadGateway,
    http.StatusServiceUnavailable, http.StatusGatewayTimeout.
  repeat match goal with
         | |- context [?a =? ?b] => destruct (Z.eqb_spec a b)
         end; split; intros; try lia; try discriminate; auto.
Qed.

Lemma shouldRetry_not_transient (statusCode : Z) :
  ~ transient statusCode -> shouldRetry statusCode None = false.
Proof.
  intros Hn. destruct (shouldRetry statusCode None) eqn:E; [|reflexivity].
  apply shouldRetry_status in E. contradiction.
Qed.

(** C3.  [shouldRetry] answers [true] for every transport error whatever
    the status code; without a transport error it answers [true] exactly
    for 429, 500, 502, 503 and 504, and [false] for every other status
    code, among them every 4xx other than 429. *)
Theorem shouldRetry_classifies :
  forall statusCode : Z,
    (forall err, shouldRetry statusCode (Some err) = true) /\
    (shouldRetry statusCode None = true <-> transient statusCode) /\
    (shouldRetry statusCode None = false <-> ~ transient statusCode) /\
    (400 <= statusCode < 500 -> statusCode <> 429 ->
     shouldRetry statusCode None = false).
Proof.
  intros statusCode. split; [reflexivity|]. split; [apply shouldRetry_status|].
  split.
  - split.
    + intros E Ht. apply shouldRetry_status in Ht. congruence.
    + apply shouldRetry_not_transient.
  - intros Hr Hn. apply shouldRetry_not_transient. unfold transient. lia.
Qed.

Lemma shouldRetry_classifies_witness :
  400 <= 404 < 500 /\ 404 <> 429 /\ shouldRetry 404 None = false.
Proof.
  split; [lia|]. split; [lia|].
  apply (shouldRetry_classifies 404); lia.
Defined.

(** ** Backoff policy *)

Lemma wrap64_small (z : Z) : - 2 ^ 63 <= z < 2 ^ 63 -> wrap64 z = z.
Proof.
  intros Hz. unfold wrap64. rewrite Z.mod_small; lia.
Qed.

Lemma base_shift_bound (a : Z) :
  0 <= a <= 33 ->
  0 < DefaultBaseDelay * 2 ^ a <= DefaultBaseDelay * 2 ^ 33.
Proof.
  intros Ha. unfold DefaultBaseDelay, time.Second.
  assert (0 < 2 ^ a) by (apply Z.pow_pos_nonneg; lia).
  assert (2 ^ a <= 2 ^ 33) by (apply Z.pow_le_mono_r; lia).
  lia.
Qed.

(** C4, as the code has it.  For a jitter draw in [0, maxJitter): without a
    hint and for an attempt index from 0 to 33 the delay is
    [DefaultBaseDelay * 2^a + jitter], which lies in
    [[DefaultBaseDelay * 2^a, DefaultBaseDelay * 2^a + maxJitter)]; with a
    positive hint of at most 9223372036 seconds it is
    [h seconds + jitter], which lies in [[h s, h s + maxJitter)].  The
    jitter is added in both cases. *)
Theorem backoff_delay_bounds :
  forall a h j : Z,
    Int64N_range maxJitter j ->
    (h <= 0 -> 0 <= a <= 33 ->
     backoff_delay a h j = Some (DefaultBaseDelay * 2 ^ a + j) /\
     DefaultBaseDelay * 2 ^ a <= DefaultBaseDelay * 2 ^ a + j
       < DefaultBaseDelay * 2 ^ a + maxJitter) /\
    (0 < h <= 9223372036 ->
     backoff_delay a h j = Some (h * time.Second + j) /\
     h * time.Second <= h * time.Second + j < h * time.Second + maxJitter).
Proof.
  intros a h j Hj. unfold Int64N_range in Hj. split.
  - intros Hh Ha. split; [|lia].
    unfold backoff_delay, shl64.
    destruct (Z.ltb_spec 0 h); [lia|].
    destruct (Z.ltb_spec a 0); [lia|].
    rewrite Z.shiftl_mul_pow2 by lia.
    pose proof (base_shift_bound a Ha) as Hb.
    unfold DefaultBaseDelay, time.Second, maxJitter, time.Millisecond in *.
    rewrite (wrap64_small (1 * 1000000000 * 2 ^ a)) by lia.
    rewrite wrap64_small by lia. reflexivity.
  - intros Hh. split; [|lia].
    unfold backoff_delay.
    destruct (Z.ltb_spec 0 h); [|lia].
    unfold time.Second, maxJitter, time.Millisecond in *.
    rewrite (wrap64_small (h * 1000000000)) by lia.
    rewrite wrap64_small by lia. reflexivity.
Qed.

Lemma backoff_delay_bounds_witness :
  Int64N_range maxJitter 250000000 /\
  backoff_delay 2 0 250000000 = Some 4250000000 /\
  backoff_delay 0 2 250000000 = Some 2250000000.
Proof.
  assert (Hj : Int64N_range maxJitter 250000000)
    by (unfold Int64N_range, maxJitter, time.Millisecond; lia).
  split; [exact Hj|]. split.
  - apply (backoff_delay_bounds 2 0 250000000 Hj); lia.
  - apply (backoff_delay_bounds 0 2 250000000 Hj); lia.
Defined.

(** C4 as it is worded fails where 64-bit durations wrap: at attempt 34
    without a hint, and for a hint of 9223372037 seconds, the delay is
    negative. *)
Lemma backoff_delay_wraps :
  Int64N_range maxJitter 0 /\
  (exists d, backoff_delay 34 0 0 = Some d /\
             ~ (DefaultBaseDelay * 2 ^ 34 <= d
                < DefaultBaseDelay * 2 ^ 34 + maxJitter)) /\
  (exists d, backoff_delay 0 9223372037 0 = Some d /\
             ~ (9223372037 * time.Second <= d
                < 9223372037 * time.Second + maxJitter)).
Proof.
  split; [unfold Int64N_range, maxJitter, time.Millisecond; lia|]. split.
  - exists (-1266874889709551616). split; [vm_compute; reflexivity|].
    unfold DefaultBaseDelay, time.Second. lia.
  - exists (-9223372036709551616). split; [vm_compute; reflexivity|].
    unfold time.Second. lia.
Qed.

(** ** Resilient request executor *)

Section ExecutorFacts.
Context `{Externals} {R : Type}.
Variable c : Client.
Variable net : Network.
Variables method path : string.
Variable bodyData : option string.
Variable decode : option (string -> error + R).

Lemma do_loop_no_pass (attempt : Z) :
  do_loop c net method path bodyData decode 0%nat attempt None = (Done None, []).
Proof. reflexivity. Qed.

(** A response outside 2xx that the classifier refuses ends the loop at
    once, at whatever attempt it arrives. *)
Lemma do_loop_non_transient (k : nat) (attempt : Z) (lastErr : option error)
    (status : Z) (retryAfter body : string) :
  ctx_Err (net attempt) = None ->
  http_NewRequest method (baseURL c +++ path) = None ->
  round_trip (net attempt) = Response status retryAfter body ->
  is_2xx status = false ->
  ~ transient status ->
  do_loop c net method path bodyData decode (S k) attempt lastErr =
    (Fail (ErrAPI (build_APIError status retryAfter body)), [EvRequest attempt method (baseURL c +++ path) bodyData]).
Proof.
  intros Hctx Hreq Hrt H2xx Hnt. cbn [do_loop].
  rewrite Hctx, Hreq, Hrt, H2xx.
  rewrite (shouldRetry_not_transient status Hnt). reflexivity.
Qed.

(** A failure the classifier accepts is followed by a wait and by the rest
    of the loop, with the failure as [lastErr]. *)
Lemma do_loop_retriable (k : nat) (attempt : Z) (lastErr : option error)
    (err : error) (hint : Z) :
  ctx_Err (net attempt) = None ->
  http_NewRequest method (baseURL c +++ path) = None ->
  retriable_failure (round_trip (net attempt)) = Some (err, hint) ->
  do_loop c net method path bodyData decode (S k) attempt lastErr =
    after [EvRequest attempt method (baseURL c +++ path) bodyData; EvBackoff attempt hint]
          (do_loop c net method path bodyData decode k (attempt + 1) (Some err)).
Proof.
  intros Hctx Hreq Hrf. cbn [do_loop]. rewrite Hctx, Hreq.
  unfold retriable_failure in Hrf.
  destruct (round_trip (net attempt)) as [e|s e|status ra body].
  - inversion Hrf; subst. reflexivity.
  - discriminate.
  - destruct (is_2xx status); [discriminate|].
    destruct (shouldRetry status None); [|discriminate].
    inversion Hrf; subst. reflexivity.
Qed.

(** When every pass of the loop meets a failure the classifier accepts, the
    loop returns the failure of the last pass, and the last thing it did
    before returning is to wait. *)
Lemma do_loop_exhausted (k : nat) :
  forall (attempt : Z) (lastErr : option error) (err : error) (hint : Z),
    http_NewRequest method (baseURL c +++ path) = None ->
    (forall i, attempt <= i <= attempt + Z.of_nat k ->
       ctx_Err (net i) = None /\ retriable_failure (round_trip (net i)) <> None) ->
    retriable_failure (round_trip (net (attempt + Z.of_nat k))) = Some (err, hint) ->
    exists evs,
      do_loop c net method path bodyData decode (S k) attempt lastErr =
        (Fail err, evs ++ [EvRequest (attempt + Z.of_nat k) method (baseURL c +++ path) bodyData;
                           EvBackoff (attempt + Z.of_nat k) hint]).
Proof.
  induction k as [|k IH]; intros attempt lastErr err hint Hreq Hall Hlast.
  - replace (attempt + Z.of_nat 0) with attempt in * by lia.
    exists []. destruct (Hall attempt ltac:(lia)) as [Hctx _].
    rewrite (do_loop_retriable 0 attempt lastErr err hint Hctx Hreq Hlast).
    reflexivity.
  - destruct (Hall attempt ltac:(lia)) as [Hctx Hrf].
    destruct (retriable_failure (round_trip (net attempt)))
      as [[e0 h0]|] eqn:E0; [|congruence].
    rewrite (do_loop_retriable (S k) attempt lastErr e0 h0 Hctx Hreq E0).
    replace (attempt + Z.of_nat (S k)) with (attempt + 1 + Z.of_nat k) in * by lia.
    destruct (IH (attempt + 1) (Some e0) err hint Hreq) as [evs Hevs].
    + intros i Hi. apply Hall. lia.
    + exact Hlast.
    + exists ([EvRequest attempt method (baseURL c +++ path) bodyData; EvBackoff attempt h0] ++ evs).
      rewrite Hevs. unfold after. cbn [fst snd].
      rewrite <- app_assoc. reflexivity.
Qed.
End ExecutorFacts.

(** C8.  When the first response read by [do] has a status outside 2xx that
    is none of 429, 500, 502, 503, 504, [do] returns the [APIError] built
    from that response after exactly one request and without any wait. *)
Theorem do_non_transient_single_attempt `{Externals} {R : Type} :
  forall (c : Client) (net : Network) (method path : string)
         (body : option Body) (decode : option (string -> error + R))
         (bodyData : option string) (status : Z) (retryAfter respBody : string),
    marshal body = inr bodyData ->
    0 < maxRetries c ->
    ctx_Err (net 0) = None ->
    http_NewRequest method (baseURL c +++ path) = None ->
    round_trip (net 0) = Response status retryAfter respBody ->
    is_2xx status = false ->
    ~ transient status ->
    do c net method path body decode =
      (Fail (ErrAPI (build_APIError status retryAfter respBody)),
       [EvRequest 0 method (baseURL c +++ path) bodyData]) /\
    StatusCode (build_APIError status retryAfter respBody) = status /\
    RetryAfter (build_APIError status retryAfter respBody) = 0.
Proof.
  intros c net method path body decode bodyData status retryAfter respBody
         Hm Hmax Hctx Hreq Hrt H2xx Hnt.
  split; [|split].
  - unfold do. rewrite Hm.
    destruct (Z.to_nat (maxRetries c)) as [|k] eqn:Ek; [lia|].
    apply do_loop_non_transient; assumption.
  - reflexivity.
  - unfold build_APIError. cbn [RetryAfter].
    destruct (Z.eqb_spec status http.StatusTooManyRequests) as [E|E];
      [|reflexivity].
    exfalso. apply Hnt. left. exact E.
Qed.

Lemma do_non_transient_single_attempt_witness :
  fst (do (H := plain_externals) (R := Lead) (New "key" []) (always 404)
          http.MethodGet "/leads/7" None (Some (@json_Unmarshal_Lead plain_externals)))
  = Fail (ErrAPI (mkAPIError 404 "" "status 404" 0)).
Proof.
  pose proof (do_non_transient_single_attempt (H := plain_externals) (R := Lead)
                (New "key" []) (always 404) http.MethodGet "/leads/7" None
                (Some (@json_Unmarshal_Lead plain_externals)) None 404 "" "") as Hw.
  destruct Hw as [Hdo _];
    [reflexivity | reflexivity | reflexivity | reflexivity | reflexivity
    | reflexivity | unfold transient; lia |].
  rewrite Hdo. reflexivity.
Defined.

Lemma do_no_pass `{Externals} {R : Type} (c : Client) (net : Network)
    (method path : string) (body : option Body)
    (decode : option (string -> error + R)) :
  maxRetries c <= 0 ->
  do c net method path body decode =
    (match marshal body with
     | inl err => Fail err
     | inr _ => Done None
     end, []).
Proof.
  intros Hn. unfold do. destruct (marshal body) as [err|data]; [reflexivity|].
  replace (Z.to_nat (maxRetries c)) with 0%nat by lia. reflexivity.
Qed.

(** C10, as the code has it.  With a maximum retry count of zero or less,
    [do] makes no request and no wait; it returns the marshalling error when
    the body cannot be marshalled, and [nil] with the result untouched in
    every other case.  So [Get], [List] and [Delete], which send no body,
    report success with a zero value without contacting the server. *)
Theorem do_without_attempts `{Externals} {R : Type} :
  forall (c0 : Client) (n : Z) (net : Network) (method path : string)
         (body : option Body) (decode : option (string -> error + R)),
    n <= 0 ->
    snd (do (WithMaxRetries n c0) net method path body decode) = [] /\
    fst (do (WithMaxRetries n c0) net method path body decode) =
      match marshal body with
      | inl err => Fail err
      | inr _ => Done None
      end /\
    (forall id, String.eqb id "" = false ->
       Get (WithMaxRetries n c0) net id = (inr zero_Lead, []) /\
       Delete (WithMaxRetries n c0) net id = (None, [])) /\
    (forall opts, List (WithMaxRetries n c0) net opts = (inr zero_ListResult, [])).
Proof.
  intros c0 n net method path body decode Hn.
  assert (Hc : maxRetries (WithMaxRetries n c0) <= 0) by exact Hn.
  rewrite (do_no_pass _ net method path body decode Hc).
  split; [reflexivity|]. split; [reflexivity|]. split.
  - intros id Hid. unfold Get, Delete. rewrite Hid.
    rewrite !do_no_pass by exact Hc. split; reflexivity.
  - intros opts. unfold List. rewrite do_no_pass by exact Hc. reflexivity.
Qed.

Lemma do_without_attempts_witness :
  do (H := plain_externals) (R := Lead)
     (WithMaxRetries 0 (New "key" [])) (always 404)
     http.MethodGet "/leads/7" None (Some (@json_Unmarshal_Lead plain_externals))
  = (Done None, []).
Proof.
  pose proof (do_without_attempts (H := plain_externals) (R := Lead)
                (New "key" []) 0 (always 404) http.MethodGet "/leads/7" None
                (Some (@json_Unmarshal_Lead plain_externals))) as Hw.
  destruct Hw as [Hevs [Hres _]]; [lia|].
  rewrite surjective_pairing at 1. rewrite Hevs, Hres. reflexivity.
Defined.

(** C10 as it is worded fails for a body that cannot be marshalled: with a
    retry count of zero, [do] still returns the marshalling error. *)
Lemma do_zero_retries_marshal_error :
  do (H := unmarshallable_externals) (R := Lead)
     (WithMaxRetries 0 (New "key" [])) (always 200)
     http.MethodPost "/leads" (Some (BodyLead (mkLead "" "Acme" "web" "rating: NaN")))
     (Some (@json_Unmarshal_Lead unmarshallable_externals))
  = (Fail (ErrExt "json: unsupported value: NaN"), []).
Proof. reflexivity. Qed.

(** When every attempt fails with a failure the classifier accepts, [do]
    returns the failure of the last attempt, after a wait that follows that
    last attempt. *)
Lemma do_exhausted `{Externals} {R : Type} :
  forall (c : Client) (net : Network) (method path : string)
         (body : option Body) (decode : option (string -> error + R))
         (bodyData : option string) (err : error) (hint : Z),
    marshal body = inr bodyData ->
    0 < maxRetries c ->
    http_NewRequest method (baseURL c +++ path) = None ->
    (forall i, 0 <= i < maxRetries c ->
       ctx_Err (net i) = None /\ retriable_failure (round_trip (net i)) <> None) ->
    retriable_failure (round_trip (net (maxRetries c - 1))) = Some (err, hint) ->
    exists evs,
      do c net method path body decode =
        (Fail err,
         evs ++ [EvRequest (maxRetries c - 1) method (baseURL c +++ path) bodyData;
                 EvBackoff (maxRetries c - 1) hint]).
Proof.
  intros c net method path body decode bodyData err hint
         Hm Hmax Hreq Hall Hlast.
  unfold do. rewrite Hm.
  destruct (Z.to_nat (maxRetries c)) as [|k] eqn:Ek; [lia|].
  assert (Hk : maxRetries c - 1 = 0 + Z.of_nat k) by lia.
  rewrite Hk in *.
  apply do_loop_exhausted; try assumption.
  intros i Hi. apply Hall. lia.
Qed.

(** C1, on the code.  With the default three attempts and a server that
    always answers 503, [do] returns the [APIError] of the third attempt,
    but only after a third wait that no attempt follows. *)
Theorem do_waits_after_final_attempt :
  do (H := plain_externals) (R := Lead) (New "key" []) (always 503)
     http.MethodGet "/leads/7" None
     (Some (@json_Unmarshal_Lead plain_externals))
  = (Fail (ErrAPI (mkAPIError 503 "" "status 503" 0)),
     [EvRequest 0 "GET" "https://getleadsdb.com/api/v1/leads/7" None;
      EvBackoff 0 0;
      EvRequest 1 "GET" "https://getleadsdb.com/api/v1/leads/7" None;
      EvBackoff 1 0;
      EvRequest 2 "GET" "https://getleadsdb.com/api/v1/leads/7" None;
      EvBackoff 2 0]).
Proof. reflexivity. Qed.

(** ** Paged fetcher *)

Section PagedFacts.
Context `{Externals}.
Variable c : Client.
Variable nets : nat -> Network.
Variable pull : nat -> bool.
Variable opts : list ListOption.

(** The inner loop hands over a prefix of the page, in order; when it runs
    to its end the prefix is the whole page. *)
Lemma yield_leads_prefix (leads : list Lead) :
  forall k, exists m,
    (m <= List.length leads)%nat /\
    fst (fst (yield_leads pull leads k)) = yielded (firstn m leads) /\
    (snd (yield_leads pull leads k) = true ->
     m = List.length leads /\ snd (fst (yield_leads pull leads k)) = (k + List.length leads)%nat).
Proof.
  induction leads as [|lead rest IH]; intros k.
  - exists 0%nat. cbn. repeat split; auto with arith.
  - cbn [yield_leads]. destruct (pull k) eqn:Ek.
    + destruct (IH (S k)) as [m [Hm [Hev Hok]]].
      destruct (yield_leads pull rest (S k)) as [[evs k'] ok] eqn:E.
      cbn [fst snd] in *. exists (S m). cbn [List.length firstn yielded map].
      split; [lia|]. split; [f_equal; exact Hev|].
      intros Ht. destruct (Hok Ht) as [-> ->]. split; lia.
    + exists 1%nat. cbn [fst snd List.length firstn yielded map].
      split; [lia|]. split; [reflexivity|discriminate].
Qed.

Lemma yield_leads_all (leads : list Lead) :
  forall k,
    (forall i, (i < List.length leads)%nat -> pull (k + i) = true) ->
    yield_leads pull leads k = (yielded leads, (k + List.length leads)%nat, true).
Proof.
  induction leads as [|lead rest IH]; intros k Hp.
  - cbn. rewrite Nat.add_0_r. reflexivity.
  - cbn [yield_leads].
    assert (H0 : pull (k + 0) = true) by (apply Hp; cbn; lia).
    rewrite Nat.add_0_r in H0.
    rewrite H0. rewrite IH.
    + cbn [yielded map List.length].
      replace (S k + List.length rest)%nat with (k + S (List.length rest))%nat
        by lia.
      reflexivity.
    + intros i Hi. replace (S k + i)%nat with (k + S i)%nat by lia.
      apply Hp. cbn. lia.
Qed.

Lemma yielded_no_error (leads : list Lead) (ev : PageEvent) :
  In ev (yielded leads) -> ~ is_error_item ev.
Proof.
  unfold yielded. rewrite in_map_iff. intros [lead [<- _]] [err Herr].
  discriminate.
Qed.

(** A page that was fetched: the loop body hands over a prefix of it and
    returns, or hands over all of it and goes on to the next page. *)
Lemma iterate_from_page (fuel n : nat) (cur : string) (k : nat)
    (result : ListResult) :
  fst (List c (nets n) (page_opts opts cur)) = inr result ->
  (exists m, (m <= List.length (Leads result))%nat /\
     iterate_from c nets pull opts (S fuel) n cur k =
       (EvList n (page_opts opts cur) :: yielded (firstn m (Leads result)), true))
  \/
  (HasMore result = true /\
   iterate_from c nets pull opts (S fuel) n cur k =
     (EvList n (page_opts opts cur) :: yielded (Leads result) ++
        fst (iterate_from c nets pull opts fuel (S n) (NextCursor result)
                          (k + List.length (Leads result))%nat),
      snd (iterate_from c nets pull opts fuel (S n) (NextCursor result)
                        (k + List.length (Leads result))%nat))).
Proof.
  intros Hl. cbn [iterate_from]. rewrite Hl.
  destruct (yield_leads_prefix (Leads result) k) as [m [Hm [Hev Hok]]].
  destruct (yield_leads pull (Leads result) k) as [[evs k'] ok] eqn:E.
  cbn [fst snd] in *. subst evs. destruct ok; cbn [negb].
  - destruct (Hok eq_refl) as [-> ->]. rewrite firstn_all.
    destruct (HasMore result); cbn [negb].
    + right. split; reflexivity.
    + left. exists (List.length (Leads result)). rewrite firstn_all. auto.
  - left. exists m. auto.
Qed.

(** A page whose fetch failed: the error is handed over and the function
    returns. *)
Lemma iterate_from_error (fuel n : nat) (cur : string) (k : nat) (err : error) :
  fst (List c (nets n) (page_opts opts cur)) = inl err ->
  iterate_from c nets pull opts (S fuel) n cur k =
    ([EvList n (page_opts opts cur); EvYield (ItemErr err)], true).
Proof.
  intros Hl. cbn [iterate_from]. rewrite Hl.
  reflexivity.
Qed.

(** An error item can only be the last event of a run, and the run has
    returned by then. *)
Lemma iterate_from_error_last (fuel : nat) :
  forall (n : nat) (cur : string) (k : nat) (ev : PageEvent),
    In ev (fst (iterate_from c nets pull opts fuel n cur k)) -> is_error_item ev ->
    exists pre,
      fst (iterate_from c nets pull opts fuel n cur k) = pre ++ [ev] /\
      snd (iterate_from c nets pull opts fuel n cur k) = true /\
      (forall ev', In ev' pre -> ~ is_error_item ev').
Proof.
  induction fuel as [|fuel IH]; intros n cur k ev Hin Herr.
  - contradiction.
  - destruct (fst (List c (nets n) (page_opts opts cur))) as [err|result] eqn:Hl.
    + rewrite (iterate_from_error fuel n cur k err Hl) in *. cbn [fst snd] in *.
      destruct Hin as [<-|[<-|[]]].
      * destruct Herr as [e He]. discriminate.
      * exists [EvList n (page_opts opts cur)]. repeat split.
        intros ev' [<-|[]] [e He]. discriminate.
    + destruct (iterate_from_page fuel n cur k result Hl)
        as [[m [Hm Hrun]]|[Hmore Hrun]]; rewrite Hrun in *; cbn [fst snd] in *.
      * exfalso. destruct Hin as [<-|Hin].
        -- destruct Herr as [e He]. discriminate.
        -- exact (yielded_no_error _ _ Hin Herr).
      * destruct Hin as [<-|Hin]; [destruct Herr as [e He]; discriminate|].
        apply in_app_or in Hin. destruct Hin as [Hin|Hin];
          [exfalso; exact (yielded_no_error _ _ Hin Herr)|].
        destruct (IH _ _ _ ev Hin Herr) as [pre [Hpre [Hfin Hno]]].
        exists (EvList n (page_opts opts cur) :: yielded (Leads result) ++ pre).
        split; [rewrite Hpre; cbn; rewrite <- app_assoc; reflexivity|].
        split; [exact Hfin|].
        intros ev' [<-|Hin'].
        -- intros [e He]. discriminate.
        -- apply in_app_or in Hin'. destruct Hin' as [Hin'|Hin'].
           ++ exact (yielded_no_error _ _ Hin').
           ++ exact (Hno _ Hin').
Qed.
End PagedFacts.



(** ** Streaming batcher *)

Section BatcherFacts.
Context `{Externals}.
Variable c : Client.
Variable nets : nat -> Network.
Variable send_ok : nat -> bool.

Lemma send_results_delivered (rs : list BulkLeadResult) :
  forall st,
    always_delivered send_ok ->
    send_results send_ok rs st =
      (mkBatcher (batch st) (timer_armed st) (results st ++ rs) (errs st)
                 (calls st) (sends st + List.length rs) (submitted st), true).
Proof.
  induction rs as [|r rest IH]; intros st Hd.
  - cbn. rewrite app_nil_r, Nat.add_0_r. destruct st; reflexivity.
  - cbn [send_results]. rewrite Hd. rewrite IH by exact Hd.
    cbn [send_result batch timer_armed results errs calls sends submitted
         List.length].
    rewrite <- app_assoc. cbn [app].
    replace (S (sends st) + List.length rest)%nat
      with (sends st + S (List.length rest))%nat by lia.
    reflexivity.
Qed.

Lemma send_errors_delivered (es : list BulkLeadError) :
  forall st,
    always_delivered send_ok ->
    send_errors send_ok es st =
      (mkBatcher (batch st) (timer_armed st) (results st)
                 (errs st ++ map index_error es)
                 (calls st) (sends st + List.length es) (submitted st), true).
Proof.
  induction es as [|e rest IH]; intros st Hd.
  - cbn. rewrite app_nil_r, Nat.add_0_r. destruct st; reflexivity.
  - cbn [send_errors]. rewrite Hd. rewrite IH by exact Hd.
    cbn [send_err batch timer_armed results errs calls sends submitted
         List.length map].
    rewrite <- app_assoc. cbn [app].
    replace (S (sends st) + List.length rest)%nat
      with (sends st + S (List.length rest))%nat by lia.
    reflexivity.
Qed.

Lemma flush_empty (st : Batcher) :
  batch st = [] -> flush c nets send_ok st = st.
Proof. intros Hb. unfold flush. rewrite Hb. reflexivity. Qed.

(** A flush whose [BulkCreate] succeeded, with every send delivered. *)
Lemma flush_success (st : Batcher) (result : BulkCreateResult) :
  batch st <> [] ->
  fst (BulkCreate c (nets (calls st)) (batch st)) = inr result ->
  always_delivered send_ok ->
  flush c nets send_ok st =
    mkBatcher [] (timer_armed st)
              (results st ++ Created result)
              (errs st ++ map index_error (Errors result))
              (S (calls st))
              (sends st + List.length (Created result)
                        + List.length (Errors result))
              (submitted st ++ [batch st]).
Proof.
  intros Hb Hr Hd. unfold flush.
  destruct (batch st) as [|lead rest] eqn:Eb; [congruence|].
  rewrite Hr. rewrite send_results_delivered by exact Hd. cbn [negb].
  rewrite send_errors_delivered by exact Hd. cbn [negb].
  unfold set_batch, called.
  cbn [batch timer_armed results errs calls sends submitted].
  rewrite Eb. reflexivity.
Qed.

(** A flush whose [BulkCreate] failed. *)
Lemma flush_failure (st : Batcher) (err : error) :
  batch st <> [] ->
  fst (BulkCreate c (nets (calls st)) (batch st)) = inl err ->
  flush c nets send_ok st =
    mkBatcher [] (timer_armed st) (results st)
              (errs st ++ (if send_ok (sends st) then [err] else []))
              (S (calls st)) (S (sends st))
              (submitted st ++ [batch st]).
Proof.
  intros Hb Hr. unfold flush.
  destruct (batch st) as [|lead rest] eqn:Eb; [congruence|].
  rewrite Hr. unfold called. cbn [sends].
  destruct (send_ok (sends st));
    unfold set_batch, send_err, send_lost;
    cbn [batch timer_armed results errs calls sends submitted];
    rewrite Eb, ?app_nil_r; reflexivity.
Qed.

(** With every send delivered, a flush of a batch that is not empty logs
    that batch and leaves the batch empty, whether [BulkCreate] succeeded or
    failed; the timer is left as it was. *)
Lemma flush_clears (st : Batcher) :
  batch st <> [] ->
  always_delivered send_ok ->
  batch (flush c nets send_ok st) = [] /\
  submitted (flush c nets send_ok st) = submitted st ++ [batch st] /\
  timer_armed (flush c nets send_ok st) = timer_armed st.
Proof.
  intros Hb Hd.
  destruct (fst (BulkCreate c (nets (calls st)) (batch st))) as [err|result] eqn:Hr.
  - rewrite (flush_failure st err Hb Hr). repeat split.
  - rewrite (flush_success st result Hb Hr Hd). repeat split.
Qed.

Lemma len_app_one {A : Type} (l : list A) (a : A) : len (l ++ [a]) = len l + 1.
Proof. unfold len. rewrite length_app. cbn. lia. Qed.

Lemma len_zero_nil {A : Type} (l : list A) : len l = 0 <-> l = [].
Proof.
  unfold len. destruct l; cbn; split; intros; try reflexivity; try discriminate; lia.
Qed.

Lemma batch_accept (lead : Lead) (st : Batcher) :
  batch (accept lead st) = batch st ++ [lead] /\
  submitted (accept lead st) = submitted st.
Proof.
  unfold accept. cbn [set_batch batch].
  destruct (len (batch st ++ [lead]) =? 1); split; reflexivity.
Qed.

(** What one pass of the loop does to the batch and to the log, when every
    send is delivered and the batch holds fewer than a hundred records. *)
Lemma step_flushes (st : Batcher) (sel : Select) :
  always_delivered send_ok ->
  len (batch st) < maxBatchSize ->
  let st' := fst (step c nets send_ok st sel) in
  if flush_due st sel
  then submitted st' = submitted st ++ [pending st sel] /\ batch st' = []
  else submitted st' = submitted st /\ batch st' = pending st sel.
Proof.
  intros Hd Hlt.
  destruct sel as [| |lead|]; cbn [step flush_due pending fst];
    unfold maxBatchSize in *.
  - split; reflexivity.
  - destruct (Z.eqb_spec (len (batch st)) 0) as [E|E]; cbn [negb].
    + apply len_zero_nil in E. rewrite flush_empty by exact E.
      cbn. rewrite E. split; reflexivity.
    + assert (Hb : batch (set_timer false st) <> [])
        by (cbn; intros Hn; apply E, len_zero_nil, Hn).
      destruct (flush_clears _ Hb Hd) as [Hc [Hs _]]. split; assumption.
  - destruct (batch_accept lead st) as [Hb Hs]. rewrite Hb.
    rewrite len_app_one.
    destruct (Z.eqb_spec (len (batch st) + 1) 100) as [E|E].
    + destruct (Z.leb_spec 100 (len (batch st) + 1)); [|lia]. cbn [fst].
      assert (Hne : batch (set_timer false (accept lead st)) <> []).
      { cbn [set_timer batch]. rewrite Hb. intros Hn.
        apply (f_equal (@List.length Lead)) in Hn.
        rewrite length_app in Hn. cbn in Hn. lia. }
      destruct (flush_clears _ Hne Hd) as [Hc [Hsub _]].
      rewrite Hsub, Hc. cbn [set_timer batch submitted]. rewrite Hb, Hs.
      split; reflexivity.
    + destruct (Z.leb_spec 100 (len (batch st) + 1)); [lia|]. cbn [fst].
      split; assumption.
  - destruct (Z.eqb_spec (len (batch st)) 0) as [E|E]; cbn [negb].
    + apply len_zero_nil in E. rewrite flush_empty by exact E.
      cbn. rewrite E. split; reflexivity.
    + assert (Hb : batch (set_timer false st) <> [])
        by (cbn; intros Hn; apply E, len_zero_nil, Hn).
      destruct (flush_clears _ Hb Hd) as [Hc [Hs _]]. split; assumption.
Qed.

Lemma step_keeps_room (st : Batcher) (sel : Select) :
  always_delivered send_ok ->
  len (batch st) < maxBatchSize ->
  len (batch (fst (step c nets send_ok st sel))) < maxBatchSize.
Proof.
  intros Hd Hlt. pose proof (step_flushes st sel Hd Hlt) as Hs. cbn zeta in Hs.
  destruct (flush_due st sel) eqn:Ef.
  - destruct Hs as [_ ->]. unfold maxBatchSize. cbn. lia.
  - destruct Hs as [_ ->]. destruct sel; cbn [pending flush_due] in *; try assumption.
    rewrite len_app_one. destruct (Z.eqb_spec (len (batch st) + 1) maxBatchSize);
      [discriminate|]. lia.
Qed.

Lemma run_keeps_room (sched : list Select) :
  forall st st' returned,
    always_delivered send_ok ->
    len (batch st) < maxBatchSize ->
    run c nets send_ok sched st = (st', returned) ->
    len (batch st') < maxBatchSize.
Proof.
  induction sched as [|sel rest IH]; intros st st' returned Hd Hlt Hrun.
  - cbn in Hrun. inversion Hrun; subst. exact Hlt.
  - cbn [run] in Hrun.
    pose proof (step_keeps_room st sel Hd Hlt) as Hs.
    destruct (step c nets send_ok st sel) as [st1 fin] eqn:E. cbn [fst] in Hs.
    destruct fin.
    + inversion Hrun; subst. exact Hs.
    + exact (IH st1 st' returned Hd Hs Hrun).
Qed.

Lemma reachable_has_room (st : Batcher) :
  always_delivered send_ok ->
  reachable c nets send_ok st ->
  len (batch st) < maxBatchSize.
Proof.
  intros Hd [sched Hrun].
  apply (run_keeps_room sched init st false Hd); [|exact Hrun].
  unfold maxBatchSize. cbn. lia.
Qed.
End BatcherFacts.




(** C7, as the code has it.  When [BulkCreate] fails, [flush] tries once to
    deliver that error: the errors outlet receives it, and nothing else,
    unless cancellation pre-empts the send, in which case it receives
    nothing.  The results outlet receives nothing, the batch is emptied, and
    [BulkCreate] has been called once. *)
Theorem flush_failure_discards_batch `{Externals} :
  forall (c : Client) (nets : nat -> Network) (send_ok : nat -> bool)
         (st : Batcher) (err : error),
    batch st <> [] ->
    fst (BulkCreate c (nets (calls st)) (batch st)) = inl err ->
    flush c nets send_ok st =
      mkBatcher [] (timer_armed st) (results st)
                (errs st ++ (if send_ok (sends st) then [err] else []))
                (S (calls st)) (S (sends st))
                (submitted st ++ [batch st]).
Proof.
  intros c nets send_ok st err Hb Hr. apply flush_failure; assumption.
Qed.

Lemma flush_failure_discards_batch_witness :
  flush (H := plain_externals) (New "key" []) (fun _ => always 400)
        (fun _ => true) (mkBatcher [leadA; leadB] true [] [] 0 0 [])
  = mkBatcher [] true [] [ErrAPI (mkAPIError 400 "" "status 400" 0)] 1 1
              [[leadA; leadB]].
Proof.
  rewrite (flush_failure_discards_batch (H := plain_externals) (New "key" [])
             (fun _ => always 400) (fun _ => true)
             (mkBatcher [leadA; leadB] true [] [] 0 0 [])
             (ErrAPI (mkAPIError 400 "" "status 400" 0))).
  - reflexivity.
  - discriminate.
  - reflexivity.
Defined.

(** C7 as it is worded fails under cancellation: [BulkCreate] fails because
    the context is cancelled, the sending [select] takes [<-ctx.Done()], and
    no error at all reaches the errors outlet. *)
Lemma flush_failure_error_lost :
  let st := mkBatcher [leadA; leadB] true [] [] 0 0 [] in
  fst (BulkCreate (H := plain_externals) (New "key" []) (cancelled_nets 0%nat)
                  (batch st)) = inl (ErrExt "context canceled") /\
  errs (flush (H := plain_externals) (New "key" []) cancelled_nets
              (fun _ => false) st) = [].
Proof. cbv zeta. split; reflexivity. Qed.

(** C6, as the code has it.  As long as no send is pre-empted by
    cancellation: at the top of the loop the batch holds fewer than 100
    records, and it holds at most 100 once a record has been appended; a
    pass of the loop submits the batch exactly when the appended record is
    the hundredth, or when the timer fires or the input closes on a batch
    that is not empty; the submitted batch is the pending one, and the batch
    is empty after each such pass, whether [BulkCreate] succeeded or not. *)
Theorem batcher_capacity_and_flushes `{Externals} :
  forall (c : Client) (nets : nat -> Network) (send_ok : nat -> bool)
         (st : Batcher),
    always_delivered send_ok ->
    reachable c nets send_ok st ->
    len (batch st) <= maxBatchSize /\
    (forall lead, len (batch (accept lead st)) <= maxBatchSize) /\
    (forall sel,
       let st' := fst (step c nets send_ok st sel) in
       if flush_due st sel
       then submitted st' = submitted st ++ [pending st sel] /\ batch st' = []
       else submitted st' = submitted st /\ batch st' = pending st sel).
Proof.
  intros c nets send_ok st Hd Hr.
  pose proof (reachable_has_room c nets send_ok st Hd Hr) as Hlt.
  split; [lia|]. split.
  - intros lead. destruct (batch_accept lead st) as [-> _].
    rewrite len_app_one. lia.
  - intros sel. apply step_flushes; assumption.
Qed.

Lemma batcher_capacity_and_flushes_witness :
  let st := fst (run (H := one_created_externals) (New "key" []) ok_nets
                     (fun _ => true) [SelLead leadA; SelLead leadB] init) in
  len (batch st) <= maxBatchSize /\
  submitted (fst (step (H := one_created_externals) (New "key" []) ok_nets
                       (fun _ => true) st SelTimer)) = [[leadA; leadB]].
Proof.
  intros st.
  destruct (batcher_capacity_and_flushes (H := one_created_externals)
              (New "key" []) ok_nets (fun _ => true) st) as [Hcap [_ Hstep]].
  - intros k. reflexivity.
  - exists [SelLead leadA; SelLead leadB]. reflexivity.
  - split; [exact Hcap|]. exact (proj1 (Hstep SelTimer)).
Defined.

(** C6 as it is worded fails twice.  A batch of one record is submitted when
    the input closes, although it never reached 100 records and no timer
    fired.  And when cancellation pre-empts the first send of a flush the
    batch is not cleared: after 100 records it still holds 100, and the
    next record makes it 101. *)
Lemma batcher_flush_on_close_and_overfull :
  (let st := fst (run (H := one_created_externals) (New "key" []) ok_nets
                      (fun _ => true) [SelLead leadA] init) in
   len (batch st) = 1 /\
   submitted st = [] /\
   submitted (fst (step (H := one_created_externals) (New "key" []) ok_nets
                        (fun _ => true) st SelClosed)) = [[leadA]]) /\
  (let st := fst (run (H := one_created_externals) (New "key" []) ok_nets
                      (fun _ => false) (repeat (SelLead leadA) 100) init) in
   reachable (H := one_created_externals) (New "key" []) ok_nets
             (fun _ => false) st /\
   List.length (submitted st) = 1%nat /\
   len (batch st) = 100 /\
   len (batch (accept leadA st)) = 101).
Proof.
  split.
  - cbv zeta. repeat split.
  - cbv zeta. split.
    + exists (repeat (SelLead leadA) 100). vm_compute. reflexivity.
    + vm_compute. repeat split.
Qed.

(* ================================================================== *)
(** * Further properties *)

(** ** Executor: shape of a run *)

Section ExecutorRuns.
Context `{Externals} {R : Type}.
Variable c : Client.
Variable net : Network.
Variables method path : string.
Variable bodyData : option string.
Variable decode : option (string -> error + R).

Lemma counts_after (evs : list Event) (run : Outcome R * list Event) :
  requests (snd (after evs run)) = (requests evs + requests (snd run))%nat /\
  waits (snd (after evs run)) = (waits evs + waits (snd run))%nat.
Proof.
  unfold after, requests, waits. cbn [snd].
  rewrite !filter_app, !length_app. split; reflexivity.
Qed.

Lemma do_loop_counts (k : nat) :
  forall (attempt : Z) (lastErr : option error),
    (requests (snd (do_loop c net method path bodyData decode k attempt lastErr))
     <= k)%nat /\
    (waits (snd (do_loop c net method path bodyData decode k attempt lastErr))
     <= requests (snd (do_loop c net method path bodyData decode k attempt lastErr)))%nat.
Proof.
  induction k as [|k IH]; intros attempt lastErr; cbn [do_loop].
  - cbn. split; lia.
  - destruct (ctx_Err (net attempt)); [cbn; split; lia|].
    destruct (http_NewRequest method (baseURL c +++ path)); [cbn; split; lia|].
    destruct (round_trip (net attempt)) as [err|s err|status ra body].
    + cbn [shouldRetry negb].
      destruct (counts_after
                  [EvRequest attempt method (baseURL c +++ path) bodyData;
                   EvBackoff attempt 0]
                  (do_loop c net method path bodyData decode k (attempt + 1)
                           (Some err))) as [-> ->].
      destruct (IH (attempt + 1) (Some err)) as [Hr Hw]. cbn. split; lia.
    + cbn. split; lia.
    + destruct (is_2xx status).
      * destruct decode as [dec|]; [|cbn; split; lia].
        destruct (nonempty body); [|cbn; split; lia].
        destruct (dec body); cbn; split; lia.
      * destruct (shouldRetry status None); cbn [negb]; [|cbn; split; lia].
        destruct (counts_after
                    [EvRequest attempt method (baseURL c +++ path) bodyData;
                     EvBackoff attempt
                       (RetryAfter (build_APIError status ra body))]
                    (do_loop c net method path bodyData decode k (attempt + 1)
                       (Some (ErrAPI (build_APIError status ra body)))))
          as [-> ->].
        destruct (IH (attempt + 1)
                     (Some (ErrAPI (build_APIError status ra body))))
          as [Hr Hw].
        cbn. split; lia.
Qed.

(** Every event of the loop belongs to one of its passes, and every request
    is the same request. *)
Lemma do_loop_events (k : nat) :
  forall (attempt : Z) (lastErr : option error),
    Forall (event_of_pass method (baseURL c +++ path) bodyData
                          attempt (attempt + Z.of_nat k))
           (snd (do_loop c net method path bodyData decode k attempt lastErr)).
Proof.
  induction k as [|k IH]; intros attempt lastErr; cbn [do_loop].
  - constructor.
  - assert (Hreq : event_of_pass method (baseURL c +++ path) bodyData
                     attempt (attempt + Z.of_nat (S k))
                     (EvRequest attempt method (baseURL c +++ path) bodyData))
      by (cbn; repeat split; lia).
    assert (Hrest : forall e,
               Forall (event_of_pass method (baseURL c +++ path) bodyData
                        attempt (attempt + Z.of_nat (S k)))
                      (snd (do_loop c net method path bodyData decode k
                                    (attempt + 1) e))).
    { intros e. eapply Forall_impl; [|apply IH].
      intros [a m u b|a h]; cbn; intuition lia. }
    destruct (ctx_Err (net attempt)); [apply Forall_nil|].
    destruct (http_NewRequest method (baseURL c +++ path)); [apply Forall_nil|].
    destruct (round_trip (net attempt)) as [err|s err|status ra body].
    + cbn [shouldRetry negb after snd app].
      apply Forall_cons; [exact Hreq|]. apply Forall_cons; [cbn; lia|]. apply Hrest.
    + (cbn [snd]; apply Forall_cons; [exact Hreq|apply Forall_nil]).
    + destruct (is_2xx status).
      * destruct decode as [dec|]; [|(cbn [snd]; apply Forall_cons; [exact Hreq|apply Forall_nil])].
        destruct (nonempty body); [|(cbn [snd]; apply Forall_cons; [exact Hreq|apply Forall_nil])].
        destruct (dec body); (cbn [snd]; apply Forall_cons; [exact Hreq|apply Forall_nil]).
      * destruct (shouldRetry status None); cbn [negb after snd app];
          [|(cbn [snd]; apply Forall_cons; [exact Hreq|apply Forall_nil])].
        apply Forall_cons; [exact Hreq|]. apply Forall_cons; [cbn; lia|]. apply Hrest.
Qed.

(** Passes that all meet a failure the classifier accepts are each one
    request and one wait, and leave the rest of the loop to run. *)
Lemma do_loop_retries (k : nat) :
  forall (m : nat) (attempt : Z) (lastErr : option error),
    http_NewRequest method (baseURL c +++ path) = None ->
    (forall i, attempt <= i < attempt + Z.of_nat k ->
       ctx_Err (net i) = None /\ retriable_failure (round_trip (net i)) <> None) ->
    exists evs lastErr',
      do_loop c net method path bodyData decode (k + m) attempt lastErr =
        after evs (do_loop c net method path bodyData decode m
                           (attempt + Z.of_nat k) lastErr') /\
      requests evs = k /\ waits evs = k.
Proof.
  induction k as [|k IH]; intros m attempt lastErr Hreq Hall.
  - exists [], lastErr. replace (attempt + Z.of_nat 0) with attempt by lia.
    cbn [Nat.add]. unfold after. cbn. split; [|split; reflexivity].
    destruct (do_loop c net method path bodyData decode m attempt lastErr);
      reflexivity.
  - destruct (Hall attempt ltac:(lia)) as [Hctx Hrf].
    destruct (retriable_failure (round_trip (net attempt)))
      as [[e0 h0]|] eqn:E0; [|congruence].
    cbn [Nat.add].
    rewrite (do_loop_retriable c net method path bodyData decode
               (k + m) attempt lastErr e0 h0 Hctx Hreq E0).
    destruct (IH m (attempt + 1) (Some e0) Hreq) as [evs [e' [Hrun [Hr Hw]]]].
    { intros i Hi. apply Hall. lia. }
    exists ([EvRequest attempt method (baseURL c +++ path) bodyData;
             EvBackoff attempt h0] ++ evs), e'.
    rewrite Hrun.
    replace (attempt + Z.of_nat (S k)) with (attempt + 1 + Z.of_nat k) by lia.
    split; [unfold after; cbn [fst snd]; rewrite <- app_assoc; reflexivity|].
    unfold requests, waits in *. cbn. rewrite Hr, Hw. split; reflexivity.
Qed.
End ExecutorRuns.

(** X1.  Whatever the network does, [do] makes at most [maxRetries]
    requests (none when [maxRetries] is not positive), and never waits more
    often than it has sent a request. *)
Theorem do_request_bound `{Externals} {R : Type} :
  forall (c : Client) (net : Network) (method path : string)
         (body : option Body) (decode : option (string -> error + R)),
    Z.of_nat (requests (snd (do c net method path body decode)))
      <= Z.max 0 (maxRetries c) /\
    (waits (snd (do c net method path body decode))
     <= requests (snd (do c net method path body decode)))%nat.
Proof.
  intros c net method path body decode. unfold do.
  destruct (marshal body) as [err|bodyData]; [cbn; lia|].
  destruct (do_loop_counts c net method path bodyData decode
              (Z.to_nat (maxRetries c)) 0 None) as [Hr Hw].
  split; [lia|exact Hw].
Qed.

(** X2.  The body is marshalled once: every request of a run of [do]
    carries the same method, the same URL and the same bytes, and the
    attempts are numbered from 0 to below [maxRetries]. *)
Theorem do_requests_identical `{Externals} {R : Type} :
  forall (c : Client) (net : Network) (method path : string)
         (body : option Body) (decode : option (string -> error + R)),
    Forall (event_of_pass method (baseURL c +++ path)
              (match marshal body with inr data => data | inl _ => None end)
              0 (Z.max 0 (maxRetries c)))
           (snd (do c net method path body decode)).
Proof.
  intros c net method path body decode. unfold do.
  destruct (marshal body) as [err|bodyData]; [apply Forall_nil|].
  eapply Forall_impl;
    [|apply (do_loop_events c net method path bodyData decode
               (Z.to_nat (maxRetries c)) 0 None)].
  intros [a m u b|a h]; cbn; intuition lia.
Qed.

(** X3.  When the first [k] attempts fail with failures the classifier
    accepts and attempt [k] (still below [maxRetries]) reads a response in
    2xx, [do] answers that response -- the decoded body, [nil] for an empty
    body or when no result was asked for, the decoding error otherwise --
    after exactly [k + 1] requests and [k] waits. *)
Theorem do_success_after_retries `{Externals} {R : Type} :
  forall (c : Client) (net : Network) (method path : string)
         (body : option Body) (decode : option (string -> error + R))
         (bodyData : option string) (k : nat)
         (status : Z) (retryAfter respBody : string),
    marshal body = inr bodyData ->
    http_NewRequest method (baseURL c +++ path) = None ->
    Z.of_nat k < maxRetries c ->
    (forall i, 0 <= i < Z.of_nat k ->
       ctx_Err (net i) = None /\ retriable_failure (round_trip (net i)) <> None) ->
    ctx_Err (net (Z.of_nat k)) = None ->
    round_trip (net (Z.of_nat k)) = Response status retryAfter respBody ->
    is_2xx status = true ->
    fst (do c net method path body decode) = on_success decode respBody /\
    requests (snd (do c net method path body decode)) = S k /\
    waits (snd (do c net method path body decode)) = k.
Proof.
  intros c net method path body decode bodyData k status retryAfter respBody
         Hm Hreq Hk Hall Hctx Hrt H2xx.
  unfold do. rewrite Hm.
  assert (Hsplit : Z.to_nat (maxRetries c)
                   = (k + S (Z.to_nat (maxRetries c) - S k))%nat) by lia.
  rewrite Hsplit.
  destruct (do_loop_retries c net method path bodyData decode k
              (S (Z.to_nat (maxRetries c) - S k)) 0 None Hreq)
    as [evs [e' [Hrun [Hr Hw]]]].
  { intros i Hi. apply Hall. lia. }
  rewrite Hrun. cbn [do_loop Z.add]. rewrite Hctx, Hreq, Hrt, H2xx.
  match goal with
  | |- context [after evs ?run] =>
      destruct (counts_after evs run) as [Hcr Hcw];
      assert (Hres : run = (on_success decode respBody,
                            [EvRequest (Z.of_nat k) method (baseURL c +++ path)
                                       bodyData]))
  end.
  { unfold on_success. destruct decode as [dec|]; [|reflexivity].
    destruct (nonempty respBody); [|reflexivity].
    destruct (dec respBody); reflexivity. }
  rewrite Hres in *. rewrite Hcr, Hcw, Hr, Hw. cbn. repeat split; lia.
Qed.

Lemma do_success_after_retries_witness :
  fst (do (H := plain_externals) (R := Lead) (New "key" []) flaky_net
          http.MethodGet "/leads/7" None
          (Some (@json_Unmarshal_Lead plain_externals)))
  = Done (Some zero_Lead).
Proof.
  destruct (do_success_after_retries (H := plain_externals) (R := Lead)
              (New "key" []) flaky_net http.MethodGet "/leads/7" None
              (Some (@json_Unmarshal_Lead plain_externals)) None 1%nat
              200 "" "ok") as [Hres _].
  - reflexivity.
  - reflexivity.
  - reflexivity.
  - intros i Hi. cbn in Hi. replace i with 0 by lia. split; [reflexivity|discriminate].
  - reflexivity.
  - reflexivity.
  - reflexivity.
  - rewrite Hres. reflexivity.
Defined.

(** X4.  Cancellation wins over retrying: when the context is found
    cancelled before attempt [k], after [k] failures the classifier accepts,
    [do] returns the context's error and sends no further request. *)
Theorem do_cancelled_before_attempt `{Externals} {R : Type} :
  forall (c : Client) (net : Network) (method path : string)
         (body : option Body) (decode : option (string -> error + R))
         (bodyData : option string) (k : nat) (err : error),
    marshal body = inr bodyData ->
    http_NewRequest method (baseURL c +++ path) = None ->
    Z.of_nat k < maxRetries c ->
    (forall i, 0 <= i < Z.of_nat k ->
       ctx_Err (net i) = None /\ retriable_failure (round_trip (net i)) <> None) ->
    ctx_Err (net (Z.of_nat k)) = Some err ->
    fst (do c net method path body decode) = Fail err /\
    requests (snd (do c net method path body decode)) = k /\
    waits (snd (do c net method path body decode)) = k.
Proof.
  intros c net method path body decode bodyData k err Hm Hreq Hk Hall Hctx.
  unfold do. rewrite Hm.
  assert (Hsplit : Z.to_nat (maxRetries c)
                   = (k + S (Z.to_nat (maxRetries c) - S k))%nat) by lia.
  rewrite Hsplit.
  destruct (do_loop_retries c net method path bodyData decode k
              (S (Z.to_nat (maxRetries c) - S k)) 0 None Hreq)
    as [evs [e' [Hrun [Hr Hw]]]].
  { intros i Hi. apply Hall. lia. }
  rewrite Hrun. cbn [do_loop Z.add]. rewrite Hctx.
  match goal with
  | |- context [after evs ?run] =>
      destruct (counts_after evs run) as [Hcr Hcw]
  end.
  rewrite Hcr, Hcw, Hr, Hw. cbn. repeat split; lia.
Qed.

Lemma do_cancelled_before_attempt_witness :
  fst (do (H := plain_externals) (R := Lead) (New "key" []) cancelled_after_first
          http.MethodGet "/leads/7" None
          (Some (@json_Unmarshal_Lead plain_externals)))
  = Fail (ErrExt "context canceled").
Proof.
  destruct (do_cancelled_before_attempt (H := plain_externals) (R := Lead)
              (New "key" []) cancelled_after_first http.MethodGet "/leads/7"
              None (Some (@json_Unmarshal_Lead plain_externals)) None 1%nat
              (ErrExt "context canceled")) as [Hres _].
  - reflexivity.
  - reflexivity.
  - reflexivity.
  - intros i Hi. cbn in Hi. replace i with 0 by lia. split; [reflexivity|discriminate].
  - reflexivity.
  - rewrite Hres. reflexivity.
Defined.

Lemma transient_not_2xx (status : Z) : transient status -> is_2xx status = false.
Proof.
  unfold transient, is_2xx, http.StatusOK, http.StatusMultipleChoices.
  intros Ht. destruct (Z.ltb_spec status 300); [lia|].
  apply andb_false_r.
Qed.

Lemma retriable_response `{Externals} (status : Z) (retryAfter body : string) :
  transient status ->
  retriable_failure (Response status retryAfter body) =
    Some (ErrAPI (build_APIError status retryAfter body),
          RetryAfter (build_APIError status retryAfter body)).
Proof.
  intros Ht. unfold retriable_failure.
  rewrite (transient_not_2xx status Ht).
  apply shouldRetry_status in Ht. rewrite Ht. reflexivity.
Qed.

(** X5.  After a first response with a transient status, [do] waits once
    before anything else, and the hint it passes to [backoff] is the number
    parsed from the [Retry-After] header when the status is 429, and 0 in
    every other case: for a status other than 429 the header is ignored, and
    so is a header that does not parse.  A hint of [h] seconds, from 1 to
    9223372036, makes that wait last [h] seconds plus the jitter instead of
    the exponential delay. *)
Theorem do_backoff_hint `{Externals} {R : Type} :
  forall (c : Client) (net : Network) (method path : string)
         (body : option Body) (decode : option (string -> error + R))
         (bodyData : option string) (status : Z) (retryAfter respBody : string),
    marshal body = inr bodyData ->
    0 < maxRetries c ->
    ctx_Err (net 0) = None ->
    http_NewRequest method (baseURL c +++ path) = None ->
    round_trip (net 0) = Response status retryAfter respBody ->
    transient status ->
    let hint := RetryAfter (build_APIError status retryAfter respBody) in
    (exists rest,
       snd (do c net method path body decode) =
         EvRequest 0 method (baseURL c +++ path) bodyData ::
         EvBackoff 0 hint :: rest) /\
    (status <> 429 -> hint = 0) /\
    (status = 429 -> strconv_Atoi retryAfter = None -> hint = 0) /\
    (forall h, status = 429 -> nonempty retryAfter = true ->
               strconv_Atoi retryAfter = Some h -> hint = h) /\
    (forall j, Int64N_range maxJitter j -> 0 < hint <= 9223372036 ->
               backoff_delay 0 hint j = Some (hint * time.Second + j)).
Proof.
  intros c net method path body decode bodyData status retryAfter respBody
         Hm Hmax Hctx Hreq Hrt Ht hint.
  split; [|split; [|split; [|split]]].
  - unfold do. rewrite Hm.
    destruct (Z.to_nat (maxRetries c)) as [|k] eqn:Ek; [lia|].
    rewrite (do_loop_retriable c net method path bodyData decode k 0 None
               (ErrAPI (build_APIError status retryAfter respBody)) hint
               Hctx Hreq).
    + unfold after. cbn [snd app]. eexists. reflexivity.
    + rewrite Hrt. apply retriable_response. exact Ht.
  - intros Hs. unfold hint, build_APIError. cbn [RetryAfter].
    destruct (Z.eqb_spec status http.StatusTooManyRequests) as [E|E];
      [contradiction|reflexivity].
  - intros Hs Ha. unfold hint, build_APIError. cbn [RetryAfter].
    rewrite Ha. destruct (status =? http.StatusTooManyRequests);
      destruct (nonempty retryAfter); reflexivity.
  - intros h Hs Hne Ha. unfold hint, build_APIError. cbn [RetryAfter].
    rewrite Hs, Hne, Ha. reflexivity.
  - intros j Hj Hh. unfold Int64N_range in Hj. unfold backoff_delay.
    destruct (Z.ltb_spec 0 hint); [|lia].
    unfold time.Second, maxJitter, time.Millisecond in *.
    rewrite (wrap64_small (hint * 1000000000)) by lia.
    rewrite wrap64_small by lia. reflexivity.
Qed.

Lemma do_backoff_hint_witness :
  exists rest,
    snd (do (H := hint_externals) (R := Lead) (New "key" []) rate_limited
            http.MethodGet "/leads/7" None
            (Some (@json_Unmarshal_Lead hint_externals)))
    = EvRequest 0 "GET" "https://getleadsdb.com/api/v1/leads/7" None ::
      EvBackoff 0 2 :: rest.
Proof.
  destruct (do_backoff_hint (H := hint_externals) (R := Lead)
              (New "key" []) rate_limited http.MethodGet "/leads/7" None
              (Some (@json_Unmarshal_Lead hint_externals)) None 429 "2" "")
    as [Hev _].
  - reflexivity.
  - reflexivity.
  - reflexivity.
  - reflexivity.
  - reflexivity.
  - unfold transient. lia.
  - exact Hev.
Defined.

(** X6.  The error [do] returns for a response outside 2xx falls in the
    category of that response's status, whatever the body says: this holds
    for a first response the classifier refuses, and for the last response
    of a run in which every attempt failed with a failure the classifier
    accepts.  So a 404 is matched by [ErrNotFound] and by no other
    sentinel, and a 429 that outlasts the retries by [ErrRateLimited]. *)
Theorem do_error_category `{Externals} {R : Type} :
  forall (c : Client) (net : Network) (method path : string)
         (body : option Body) (decode : option (string -> error + R))
         (bodyData : option string) (status : Z) (retryAfter respBody : string),
    marshal body = inr bodyData ->
    0 < maxRetries c ->
    http_NewRequest method (baseURL c +++ path) = None ->
    (ctx_Err (net 0) = None ->
     round_trip (net 0) = Response status retryAfter respBody ->
     is_2xx status = false -> ~ transient status ->
     exists e, fst (do c net method path body decode) = Fail (ErrAPI e) /\
               forall target, Is e target = true <-> category status target) /\
    ((forall i, 0 <= i < maxRetries c ->
        ctx_Err (net i) = None /\
        retriable_failure (round_trip (net i)) <> None) ->
     round_trip (net (maxRetries c - 1)) = Response status retryAfter respBody ->
     transient status ->
     exists e, fst (do c net method path body decode) = Fail (ErrAPI e) /\
               forall target, Is e target = true <-> category status target).
Proof.
  intros c net method path body decode bodyData status retryAfter respBody
         Hm Hmax Hreq.
  split.
  - intros Hctx Hrt H2xx Hnt.
    exists (build_APIError status retryAfter respBody). split.
    + unfold do. rewrite Hm.
      destruct (Z.to_nat (maxRetries c)) as [|k] eqn:Ek; [lia|].
      rewrite (do_loop_non_transient c net method path bodyData decode k 0 None
                 status retryAfter respBody Hctx Hreq Hrt H2xx Hnt).
      reflexivity.
    + intros target. apply Is_category.
  - intros Hall Hrt Ht.
    exists (build_APIError status retryAfter respBody). split.
    + destruct (do_exhausted c net method path body decode bodyData
                  (ErrAPI (build_APIError status retryAfter respBody))
                  (RetryAfter (build_APIError status retryAfter respBody))
                  Hm Hmax Hreq Hall) as [evs Hrun].
      * rewrite Hrt. apply retriable_response. exact Ht.
      * rewrite Hrun. reflexivity.
    + intros target. apply Is_category.
Qed.

Lemma do_error_category_witness :
  exists e,
    fst (do (H := plain_externals) (R := Lead) (New "key" []) (always 404)
            http.MethodGet "/leads/7" None
            (Some (@json_Unmarshal_Lead plain_externals))) = Fail (ErrAPI e) /\
    Is e ErrNotFound = true.
Proof.
  destruct (do_error_category (H := plain_externals) (R := Lead)
              (New "key" []) (always 404) http.MethodGet "/leads/7" None
              (Some (@json_Unmarshal_Lead plain_externals)) None 404 "" "")
    as [Hfirst _].
  - reflexivity.
  - reflexivity.
  - reflexivity.
  - destruct Hfirst as [e [Hrun Hcat]].
    + reflexivity.
    + reflexivity.
    + reflexivity.
    + unfold transient. lia.
    + exists e. split; [exact Hrun|]. apply Hcat. left. split; reflexivity.
Defined.

(** ** Error categories, further *)

(** X7.  The categories exclude one another: an [APIError] is matched by at
    most one target, and an [APIError] whose status is none of 401, 403,
    404, 429, 500 (a 400, a 502, a 503 ...) is matched by none. *)
Theorem APIError_Is_exclusive :
  forall e : APIError,
    (forall t1 t2, Is e t1 = true -> Is e t2 = true -> t1 = t2) /\
    (StatusCode e <> 401 -> StatusCode e <> 403 -> StatusCode e <> 404 ->
     StatusCode e <> 429 -> StatusCode e <> 500 ->
     forall target, Is e target = false).
Proof.
  intros e. split.
  - intros t1 t2 H1 H2. apply Is_category in H1. apply Is_category in H2.
    unfold category in *.
    repeat match goal with
           | Hd : _ \/ _ |- _ => destruct Hd
           | Hc : _ /\ _ |- _ => destruct Hc
           end; subst; try reflexivity; lia.
  - intros H401 H403 H404 H429 H500 target.
    destruct (Is e target) eqn:E; [|reflexivity].
    apply Is_category in E. unfold category in E. intuition lia.
Qed.

Lemma APIError_Is_exclusive_witness :
  Is (mkAPIError 503 "unavailable" "try later" 0) ErrInternal = false.
Proof.
  apply (APIError_Is_exclusive (mkAPIError 503 "unavailable" "try later" 0));
    cbn; lia.
Defined.

(** ** Bulk creation: validation *)

Lemma eqb_empty_false (s : string) : String.eqb s "" = false <-> s <> "".
Proof. apply String.eqb_neq. Qed.

Lemma validate_leads_none (leads : list Lead) :
  forall i, validate_leads i leads = None <-> Forall valid_lead leads.
Proof.
  induction leads as [|lead rest IH]; intros i; cbn [validate_leads].
  - split; [constructor|reflexivity].
  - destruct (String.eqb (Name lead) "") eqn:En.
    + split; [discriminate|]. intros Hf. inversion Hf as [|? ? [Hn _] _]; subst.
      apply String.eqb_eq in En. contradiction.
    + destruct (String.eqb (Source lead) "") eqn:Es.
      * split; [discriminate|]. intros Hf. inversion Hf as [|? ? [_ Hs] _]; subst.
        apply String.eqb_eq in Es. contradiction.
      * rewrite IH. apply String.eqb_neq in En. apply String.eqb_neq in Es.
        split.
        -- intros Hr. constructor; [split; assumption|exact Hr].
        -- intros Hf. inversion Hf; assumption.
Qed.

Lemma validate_leads_first (pre : list Lead) :
  forall (i : Z) (bad : Lead) (post : list Lead),
    Forall valid_lead pre ->
    ~ valid_lead bad ->
    validate_leads i (pre ++ bad :: post) =
      Some (ErrText ("leadsdb: lead at index " +++ fmt_d (i + len pre) +++
                     (if String.eqb (Name bad) "" then ": name is required"
                      else ": source is required"))).
Proof.
  induction pre as [|lead rest IH]; intros i bad post Hpre Hbad.
  - cbn [app validate_leads len List.length Z.of_nat]. rewrite Z.add_0_r.
    destruct (String.eqb (Name bad) "") eqn:En; [reflexivity|].
    destruct (String.eqb (Source bad) "") eqn:Es; [reflexivity|].
    exfalso. apply Hbad. split; apply String.eqb_neq; assumption.
  - inversion Hpre as [|? ? [Hn Hs] Hrest]; subst.
    cbn [app validate_leads].
    apply String.eqb_neq in Hn. apply String.eqb_neq in Hs. rewrite Hn, Hs.
    rewrite (IH (i + 1) bad post Hrest Hbad).
    replace (i + 1 + len rest) with (i + len (lead :: rest))
      by (unfold len; cbn [List.length]; lia).
    reflexivity.
Qed.



(** X9.  For a batch of at most 100 leads, the error of [BulkCreate] names
    the first lead that lacks a name or a source, by its position counted
    from 0, and a missing name is reported before a missing source. *)
Theorem BulkCreate_reports_first_invalid `{Externals} :
  forall (c : Client) (net : Network) (pre : list Lead) (bad : Lead)
         (post : list Lead),
    len (pre ++ bad :: post) <= maxBatchSize ->
    Forall valid_lead pre ->
    ~ valid_lead bad ->
    BulkCreate c net (pre ++ bad :: post) =
      (inl (ErrText ("leadsdb: lead at index " +++ fmt_d (len pre) +++
                     (if String.eqb (Name bad) "" then ": name is required"
                      else ": source is required"))), []).
Proof.
  intros c net pre bad post Hlen Hpre Hbad. unfold BulkCreate.
  destruct (Z.eqb_spec (len (pre ++ bad :: post)) 0) as [E0|E0].
  { unfold len in E0. rewrite length_app in E0. cbn in E0. lia. }
  destruct (Z.ltb_spec maxBatchSize (len (pre ++ bad :: post))); [lia|].
  rewrite (validate_leads_first pre 0 bad post Hpre Hbad).
  rewrite Z.add_0_l. reflexivity.
Qed.

Lemma BulkCreate_reports_first_invalid_witness :
  BulkCreate (H := plain_externals) (New "key" []) (always 200)
             [leadA; leadB; mkLead "" "C" "" ""; mkLead "" "" "" ""]
  = (inl (ErrText "leadsdb: lead at index 2: source is required"), []).
Proof.
  apply (BulkCreate_reports_first_invalid (H := plain_externals) (New "key" [])
           (always 200) [leadA; leadB] (mkLead "" "C" "" "")
           [mkLead "" "" "" ""]).
  - unfold len, maxBatchSize. cbn. lia.
  - repeat constructor; discriminate.
  - intros [_ Hs]. apply Hs. reflexivity.
Defined.

(** ** Listing and paging, further *)

Lemma list_config_snoc (opts : list ListOption) (o : ListOption) :
  list_config (opts ++ [o]) = apply o (list_config opts).
Proof. unfold list_config. rewrite fold_left_app. reflexivity. Qed.

Lemma list_path_config `{Externals} (opts : list ListOption) :
  list_path opts =
    match list_params (list_config opts) with
    | [] => "/leads"
    | params => "/leads" +++ "?" +++ url_Encode params
    end.
Proof. reflexivity. Qed.

Lemma filter_params_no_cursor (fs : list filter) :
  List.filter (fun kv => String.eqb (fst kv) "cursor")
              (map (fun f => ("filter", filter_String f)) fs) = [].
Proof. induction fs as [|f fs IH]; [reflexivity|exact IH]. Qed.

(** X10.  From the second page on, the cursor [iterate] sends is the one the
    server returned, also when the caller passed a cursor of their own among
    the options: the request keeps the caller's limit, sort and filters,
    carries exactly one [cursor] parameter, and that parameter is the
    server's cursor. *)
Theorem iterate_cursor_overrides `{Externals} :
  forall (opts : list ListOption) (cur : string),
    nonempty cur = true ->
    let cfg := list_config opts in
    let cfg' := list_config (page_opts opts cur) in
    cfg' = mkListConfig (limit cfg) cur (sortBy cfg) (sortOrder cfg) (filters cfg) /\
    List.filter (fun kv => String.eqb (fst kv) "cursor") (list_params cfg')
      = [("cursor", cur)] /\
    list_path (page_opts opts cur) = "/leads" +++ "?" +++ url_Encode (list_params cfg').
Proof.
  intros opts cur Hne cfg cfg'.
  assert (Hcfg : cfg' = mkListConfig (limit cfg) cur (sortBy cfg) (sortOrder cfg)
                                     (filters cfg)).
  { unfold cfg', page_opts. rewrite Hne. rewrite list_config_snoc. reflexivity. }
  split; [exact Hcfg|].
  assert (Hpar : exists before after_,
             list_params cfg' = before ++ ("cursor", cur) :: after_ /\
             List.filter (fun kv => String.eqb (fst kv) "cursor") before = [] /\
             List.filter (fun kv => String.eqb (fst kv) "cursor") after_ = []).
  { rewrite Hcfg. unfold list_params. cbn [limit cursor sortBy sortOrder filters].
    rewrite Hne.
    exists (if 0 <? limit cfg then [("limit", fmt_d (limit cfg))] else []).
    eexists. split; [reflexivity|]. split.
    - destruct (0 <? limit cfg); reflexivity.
    - rewrite filter_app.
      replace (List.filter (fun kv => String.eqb (fst kv) "cursor")
                 (map (fun f => ("filter", filter_String f)) (filters cfg)))
        with (@nil (string * string))
        by (symmetry; apply filter_params_no_cursor).
      destruct (nonempty (sortBy cfg)); [|reflexivity].
      destruct (nonempty (sortOrder cfg)); reflexivity. }
  destruct Hpar as [before [after_ [Hp [Hb Ha]]]].
  split.
  - rewrite Hp, filter_app. cbn [List.filter fst String.eqb].
    rewrite Hb, Ha. reflexivity.
  - rewrite list_path_config. fold cfg'. rewrite Hp.
    destruct before; reflexivity.
Qed.

Lemma iterate_cursor_overrides_witness :
  list_path (H := plain_externals) (page_opts [Cursor "mine"; Limit 5] "X")
  = "/leads?limit=5&cursor=X".
Proof.
  destruct (iterate_cursor_overrides (H := plain_externals)
              [Cursor "mine"; Limit 5] "X") as [_ [_ Hpath]].
  - reflexivity.
  - rewrite Hpath. reflexivity.
Defined.

Section PagedRuns.
Context `{Externals}.
Variable c : Client.
Variable nets : nat -> Network.
Variable pull : nat -> bool.
Variable opts : list ListOption.

(** When the inner loop runs to its end, every record was accepted. *)
Lemma yield_leads_accepted (leads : list Lead) :
  forall k,
    snd (yield_leads pull leads k) = true ->
    forall i, (i < List.length leads)%nat -> pull (k + i) = true.
Proof.
  induction leads as [|lead rest IH]; intros k Hok i Hi.
  - cbn in Hi. lia.
  - cbn [yield_leads] in Hok. destruct (pull k) eqn:Ek; [|discriminate].
    destruct (yield_leads pull rest (S k)) as [[evs k'] ok] eqn:E.
    cbn [snd] in Hok. subst ok.
    destruct i as [|i]; [rewrite Nat.add_0_r; exact Ek|].
    replace (k + S i)%nat with (S k + i)%nat by lia.
    apply IH; [rewrite E; reflexivity|cbn in Hi; lia].
Qed.

(** The events of one entry into the loop: the request, then either items
    only, or the whole page, every record of it accepted, and the events of
    the next entry. *)
Lemma iterate_from_shape (fuel n : nat) (cur : string) (k : nat) :
  (exists items,
     fst (iterate_from c nets pull opts (S fuel) n cur k) =
       EvList n (page_opts opts cur) :: map EvYield items) \/
  (exists result,
     (forall i, (i < List.length (Leads result))%nat -> pull (k + i) = true) /\
     fst (iterate_from c nets pull opts (S fuel) n cur k) =
       EvList n (page_opts opts cur) :: yielded (Leads result) ++
         fst (iterate_from c nets pull opts fuel (S n) (NextCursor result)
                           (k + List.length (Leads result))%nat)).
Proof.
  cbn [iterate_from].
  destruct (fst (List c (nets n) (page_opts opts cur))) as [err|result] eqn:Hl.
  - left. exists [ItemErr err]. reflexivity.
  - destruct (yield_leads_prefix pull (Leads result) k) as [m [Hm [Hev Hok]]].
    pose proof (yield_leads_accepted (Leads result) k) as Hacc.
    destruct (yield_leads pull (Leads result) k) as [[evs k'] ok] eqn:E.
    cbn [fst snd] in *. subst evs.
    destruct ok; cbn [negb].
    + destruct (Hok eq_refl) as [-> ->]. rewrite firstn_all.
      destruct (HasMore result); cbn [negb].
      * right. exists result. split; [exact (Hacc eq_refl)|reflexivity].
      * left. exists (map ItemLead (Leads result)). cbn [fst].
        unfold yielded. rewrite map_map. reflexivity.
    + left. exists (map ItemLead (firstn m (Leads result))). cbn [fst].
      unfold yielded. rewrite map_map. reflexivity.
Qed.

Lemma split_at_request (ys : list Item) :
  forall (pre post rest : list PageEvent) (m : nat) (o : list ListOption),
    pre ++ EvList m o :: post = map EvYield ys ++ rest ->
    exists pre', pre = map EvYield ys ++ pre' /\ rest = pre' ++ EvList m o :: post.
Proof.
  induction ys as [|y ys IH]; intros pre post rest m o Heq.
  - exists pre. split; [reflexivity|symmetry; exact Heq].
  - destruct pre as [|p pre]; cbn in Heq; [discriminate|].
    inversion Heq as [[Hp Hrest]]. subst p.
    destruct (IH pre post rest m o Hrest) as [pre' [-> ->]].
    exists pre'. split; reflexivity.
Qed.

Lemma produced_yielded (leads : list Lead) :
  produced (yielded leads) = map ItemLead leads.
Proof.
  induction leads as [|l rest IH]; [reflexivity|].
  cbn. f_equal. exact IH.
Qed.

Lemma produced_app (a b : list PageEvent) :
  produced (a ++ b) = produced a ++ produced b.
Proof. unfold produced. apply flat_map_app. Qed.

(** Whatever precedes a page request in a run was accepted by the consumer,
    and is no error. *)
Lemma iterate_from_requests_after_accept (fuel : nat) :
  forall (n : nat) (cur : string) (k : nat)
         (pre post : list PageEvent) (m : nat) (o : list ListOption),
    fst (iterate_from c nets pull opts fuel n cur k) = pre ++ EvList m o :: post ->
    (forall i, (i < List.length (produced pre))%nat -> pull (k + i) = true) /\
    errors_of (produced pre) = [].
Proof.
  induction fuel as [|fuel IH]; intros n cur k pre post m o Heq.
  - cbn in Heq. destruct pre; discriminate.
  - destruct pre as [|p pre].
    { split; [intros i Hi; cbn in Hi; lia|reflexivity]. }
    destruct (iterate_from_shape fuel n cur k) as [[items Hs]|[result [Hacc Hs]]];
      rewrite Hs in Heq; cbn [app] in Heq; inversion Heq as [[Hp Hrest]]; subst p.
    + exfalso. clear - Hrest. revert pre Hrest.
      induction items as [|it items IHi]; intros pre Hrest;
        destruct pre; cbn in Hrest; try discriminate.
      inversion Hrest. eapply IHi; eassumption.
    + symmetry in Hrest. unfold yielded in Hrest.
      rewrite <- (map_map ItemLead EvYield) in Hrest.
      destruct (split_at_request _ _ _ _ _ _ Hrest) as [pre' [-> Hnext]].
      destruct (IH _ _ _ _ _ _ _ Hnext) as [Hacc' Herr'].
      rewrite map_map. fold (yielded (Leads result)).
      cbn [produced flat_map app]. fold (produced (yielded (Leads result) ++ pre')).
      rewrite produced_app, produced_yielded. split.
      * intros i Hi. rewrite length_app, length_map in Hi.
        destruct (Nat.lt_ge_cases i (List.length (Leads result))) as [Hlt|Hge].
        -- apply Hacc. exact Hlt.
        -- replace (k + i)%nat
             with (k + List.length (Leads result)
                   + (i - List.length (Leads result)))%nat by lia.
           apply Hacc'. lia.
      * unfold errors_of in *. rewrite flat_map_app, Herr', app_nil_r.
        clear. induction (Leads result) as [|l ls IHl]; [reflexivity|exact IHl].
Qed.
End PagedRuns.

(** X11.  Early termination issues no further page request: whenever a run
    of [iterate] makes a page request, every item handed over before that
    request was a record the consumer accepted.  So once the consumer has
    refused an item, or an error has been handed over, no request follows. *)
Theorem iterate_requests_only_after_accept `{Externals} :
  forall (c : Client) (nets : nat -> Network) (pull : nat -> bool)
         (opts : list ListOption) (fuel : nat)
         (pre post : list PageEvent) (m : nat) (o : list ListOption),
    fst (iterate c nets pull opts fuel) = pre ++ EvList m o :: post ->
    (forall i, (i < List.length (produced pre))%nat -> pull i = true) /\
    errors_of (produced pre) = [].
Proof.
  intros c nets pull opts fuel pre post m o Heq.
  exact (iterate_from_requests_after_accept c nets pull opts fuel
           0%nat "" 0%nat pre post m o Heq).
Qed.

Lemma iterate_requests_only_after_accept_witness :
  errors_of (produced [EvList 0 [Limit 2]; EvYield (ItemLead leadA);
                       EvYield (ItemLead leadB)]) = [].
Proof.
  apply (iterate_requests_only_after_accept (H := two_page_externals)
           (New "key" []) two_page_nets (fun _ => true) [Limit 2] 5
           [EvList 0 [Limit 2]; EvYield (ItemLead leadA); EvYield (ItemLead leadB)]
           [EvYield (ItemLead leadC)] 1%nat [Limit 2; Cursor "X"]).
  reflexivity.
Defined.

Lemma iterate_from_repeats `{Externals} (c : Client) (nets : nat -> Network)
    (pull : nat -> bool) (opts : list ListOption) (result : ListResult) :
  (forall n, fst (List c (nets n) opts) = inr result) ->
  HasMore result = true ->
  NextCursor result = "" ->
  (forall k, pull k = true) ->
  forall (fuel n k : nat),
    snd (iterate_from c nets pull opts fuel n "" k) = false /\
    page_requests (fst (iterate_from c nets pull opts fuel n "" k))
      = repeat opts fuel /\
    leads_of (produced (fst (iterate_from c nets pull opts fuel n "" k)))
      = List.concat (repeat (Leads result) fuel).
Proof.
  intros Hl Hmore Hcur Hpull.
  induction fuel as [|fuel IH]; intros n k.
  - repeat split.
  - cbn [iterate_from]. change (page_opts opts "") with opts. rewrite Hl.
    rewrite (yield_leads_all pull (Leads result) k) by (intros; apply Hpull).
    rewrite Hmore, Hcur. cbn [negb fst snd].
    destruct (IH (S n) (k + List.length (Leads result))%nat) as [Hr [Hp Hi]].
    split; [exact Hr|]. split.
    + cbn [page_requests flat_map app repeat]. f_equal.
      unfold page_requests in *. rewrite flat_map_app, Hp.
      replace (flat_map
                 (fun e => match e with EvList _ o => [o] | EvYield _ => [] end)
                 (yielded (Leads result))) with (@nil (list ListOption)).
      * reflexivity.
      * clear. induction (Leads result) as [|l ls IHl]; [reflexivity|exact IHl].
    + cbn [produced flat_map app repeat List.concat].
      fold (produced (yielded (Leads result) ++
                      fst (iterate_from c nets pull opts fuel (S n) ""
                             (k + List.length (Leads result))%nat))).
      rewrite produced_app, produced_yielded.
      unfold leads_of in *. rewrite flat_map_app, Hi. f_equal.
      clear. induction (Leads result) as [|l ls IHl]; [reflexivity|].
      cbn. f_equal. exact IHl.
Qed.

(** X12.  [iterate] relies on the server to end: against a server that
    keeps answering the request without cursor with the same page, marked
    as having more and carrying an empty next cursor, and with a consumer
    that keeps pulling, it repeats that same request and hands over that
    same page for as long as it is left to run, and never returns. *)
Theorem iterate_repeats_without_cursor `{Externals} :
  forall (c : Client) (nets : nat -> Network) (pull : nat -> bool)
         (opts : list ListOption) (result : ListResult),
    (forall n, fst (List c (nets n) opts) = inr result) ->
    HasMore result = true ->
    NextCursor result = "" ->
    (forall k, pull k = true) ->
    forall fuel,
      snd (iterate c nets pull opts fuel) = false /\
      page_requests (fst (iterate c nets pull opts fuel)) = repeat opts fuel /\
      leads_of (produced (fst (iterate c nets pull opts fuel)))
        = List.concat (repeat (Leads result) fuel).
Proof.
  intros c nets pull opts result Hl Hmore Hcur Hpull fuel.
  apply iterate_from_repeats; assumption.
Qed.

(** X13.  With a maximum retry count of zero or less the fetcher produces
    the empty sequence: one call of [List], which contacts nobody and
    returns a zero-value page, ends the run without a record and without an
    error. *)
Theorem iterate_without_attempts `{Externals} :
  forall (c0 : Client) (n : Z) (nets : nat -> Network) (pull : nat -> bool)
         (opts : list ListOption) (fuel : nat),
    n <= 0 ->
    iterate (WithMaxRetries n c0) nets pull opts (S fuel)
      = ([EvList 0 opts], true) /\
    List (WithMaxRetries n c0) (nets 0%nat) opts = (inr zero_ListResult, []).
Proof.
  intros c0 n nets pull opts fuel Hn.
  assert (Hl : forall net o,
             List (WithMaxRetries n c0) net o = (inr zero_ListResult, [])).
  { intros net o. unfold List. rewrite do_no_pass by exact Hn. reflexivity. }
  split; [|apply Hl].
  unfold iterate. cbn [iterate_from]. rewrite Hl. reflexivity.
Qed.

Lemma iterate_without_attempts_witness :
  produced (fst (iterate (H := two_page_externals)
                         (WithMaxRetries 0 (New "key" [])) two_page_nets
                         (fun _ => true) [Limit 2] 3)) = [].
Proof.
  destruct (iterate_without_attempts (H := two_page_externals) (New "key" []) 0
              two_page_nets (fun _ => true) [Limit 2] 2) as [Hrun _].
  - lia.
  - rewrite Hrun. reflexivity.
Defined.

Lemma iterate_repeats_without_cursor_witness :
  page_requests (fst (iterate (H := looping_externals) (New "key" []) ok_nets
                              (fun _ => true) [Limit 1] 3))
  = [[Limit 1]; [Limit 1]; [Limit 1]].
Proof.
  destruct (iterate_repeats_without_cursor (H := looping_externals)
              (New "key" []) ok_nets (fun _ => true) [Limit 1]
              (mkListResult [leadA] 1 true "")) with (fuel := 3%nat)
    as [_ [Hreq _]].
  - intros n. reflexivity.
  - reflexivity.
  - reflexivity.
  - intros k. reflexivity.
  - rewrite Hreq. reflexivity.
Defined.

(** ** Streaming batcher: whole runs *)

Section BatcherRuns.
Context `{Externals}.
Variable c : Client.
Variable nets : nat -> Network.
Variable send_ok : nat -> bool.

(** The sending loops touch the outlets and the send counter only. *)
Lemma send_results_frame (rs : list BulkLeadResult) :
  forall st,
    batch (fst (send_results send_ok rs st)) = batch st /\
    timer_armed (fst (send_results send_ok rs st)) = timer_armed st /\
    submitted (fst (send_results send_ok rs st)) = submitted st /\
    errs (fst (send_results send_ok rs st)) = errs st.
Proof.
  induction rs as [|r rest IH]; intros st; cbn [send_results].
  - repeat split.
  - destruct (send_ok (sends st)); [|repeat split].
    destruct (IH (send_result r st)) as [Hb [Ht [Hs He]]].
    rewrite Hb, Ht, Hs, He. repeat split.
Qed.

Lemma send_errors_frame (es : list BulkLeadError) :
  forall st,
    batch (fst (send_errors send_ok es st)) = batch st /\
    timer_armed (fst (send_errors send_ok es st)) = timer_armed st /\
    submitted (fst (send_errors send_ok es st)) = submitted st /\
    results (fst (send_errors send_ok es st)) = results st.
Proof.
  induction es as [|e rest IH]; intros st; cbn [send_errors].
  - repeat split.
  - destruct (send_ok (sends st)); [|repeat split].
    destruct (IH (send_err (index_error e) st)) as [Hb [Ht [Hs Hr]]].
    rewrite Hb, Ht, Hs, Hr. repeat split.
Qed.

(** A flush of a batch that is not empty logs it, leaves the timer alone and
    leaves the batch either empty or as it was; it empties it when
    [BulkCreate] failed. *)
Lemma flush_any (st : Batcher) :
  batch st <> [] ->
  submitted (flush c nets send_ok st) = submitted st ++ [batch st] /\
  timer_armed (flush c nets send_ok st) = timer_armed st /\
  (batch (flush c nets send_ok st) = [] \/
   batch (flush c nets send_ok st) = batch st) /\
  (forall err, fst (BulkCreate c (nets (calls st)) (batch st)) = inl err ->
     batch (flush c nets send_ok st) = []).
Proof.
  intros Hb.
  destruct (fst (BulkCreate c (nets (calls st)) (batch st))) as [err|result] eqn:Hr.
  - rewrite (flush_failure c nets send_ok st err Hb Hr). cbn. auto.
  - unfold flush. destruct (batch st) as [|lead rest] eqn:Eb; [congruence|].
    rewrite Hr.
    destruct (send_results_frame (Created result) (called st)) as [Hb1 [Ht1 [Hs1 _]]].
    destruct (send_results send_ok (Created result) (called st)) as [st1 ok1].
    cbn [fst] in *. destruct ok1; cbn [negb].
    + destruct (send_errors_frame (Errors result) st1) as [Hb2 [Ht2 [Hs2 _]]].
      destruct (send_errors send_ok (Errors result) st1) as [st2 ok2].
      cbn [fst] in *. destruct ok2; cbn [negb].
      * cbn [set_batch batch timer_armed submitted].
        rewrite Hs2, Hs1, Ht2, Ht1. cbn [called submitted timer_armed].
        rewrite Eb. repeat split; auto; intros; discriminate.
      * rewrite Hs2, Hs1, Ht2, Ht1, Hb2, Hb1. cbn [called submitted timer_armed batch].
        rewrite Eb. repeat split; auto; intros; discriminate.
    + rewrite Hs1, Ht1, Hb1. cbn [called submitted timer_armed batch].
      rewrite Eb. repeat split; auto; intros; discriminate.
Qed.

Lemma BulkCreate_too_many (net : Network) (leads : list Lead) :
  maxBatchSize < len leads ->
  BulkCreate c net leads = (inl (ErrText "leadsdb: maximum 100 leads allowed"), []).
Proof.
  intros Hlen. unfold BulkCreate.
  destruct (Z.eqb_spec (len leads) 0); [unfold maxBatchSize in *; lia|].
  destruct (Z.ltb_spec maxBatchSize (len leads)); [reflexivity|lia].
Qed.

Lemma len_nonneg {A : Type} (l : list A) : 0 <= len l.
Proof. unfold len. lia. Qed.

(** What a pass does to the batch and to the log, under any scheduling of
    the sends. *)
Lemma step_any (st : Batcher) (sel : Select) :
  len (batch st) <= maxBatchSize ->
  let st' := fst (step c nets send_ok st sel) in
  len (batch st') <= maxBatchSize /\
  (submitted st' = submitted st \/
   exists b, submitted st' = submitted st ++ [b] /\ 1 <= len b <= maxBatchSize + 1).
Proof.
  intros Hle. unfold maxBatchSize in *.
  assert (Hflush : forall st0,
             len (batch st0) <= 100 ->
             len (batch (flush c nets send_ok st0)) <= 100 /\
             (submitted (flush c nets send_ok st0) = submitted st0 \/
              exists b, submitted (flush c nets send_ok st0) = submitted st0 ++ [b] /\
                        1 <= len b <= 100 + 1)).
  { intros st0 H0. destruct (batch st0) as [|l0 r0] eqn:Eb.
    - rewrite flush_empty by exact Eb. rewrite Eb. split; [cbn; lia|left; reflexivity].
    - assert (Hne : batch st0 <> []) by congruence.
      destruct (flush_any st0 Hne) as [Hs [_ [[Hc|Hc] _]]]; rewrite Hc.
      + split; [cbn; lia|]. right. exists (batch st0). split; [exact Hs|].
        rewrite Eb in *. unfold len in *. cbn [List.length] in *. lia.
      + split; [rewrite Eb; exact H0|]. right. exists (batch st0).
        split; [exact Hs|]. rewrite Eb in *. unfold len in *.
        cbn [List.length] in *. lia. }
  destruct sel as [| |lead|]; cbn [step fst].
  - split; [exact Hle|left; reflexivity].
  - apply (Hflush (set_timer false st)). exact Hle.
  - destruct (batch_accept lead st) as [Hb Hs].
    destruct (Z.leb_spec maxBatchSize (len (batch (accept lead st)))) as [Hfull|Hroom];
      unfold maxBatchSize in *; cbn [fst].
    + assert (Hne : batch (set_timer false (accept lead st)) <> []).
      { cbn [set_timer batch]. rewrite Hb. intros Hn.
        apply (f_equal (@List.length Lead)) in Hn.
        rewrite length_app in Hn. cbn in Hn. lia. }
      destruct (flush_any _ Hne) as [Hsub [_ [Hc Hfail]]].
      cbn [set_timer batch submitted calls] in *. rewrite Hsub, Hs, Hb.
      rewrite Hb in Hfull, Hc, Hfail. rewrite len_app_one in Hfull.
      split.
      * destruct (Z.eq_dec (len (batch st)) 100) as [E|E].
        -- rewrite (Hfail (ErrText "leadsdb: maximum 100 leads allowed")).
           ++ cbn. lia.
           ++ rewrite BulkCreate_too_many; [reflexivity|].
              unfold maxBatchSize. rewrite len_app_one. lia.
        -- destruct Hc as [Hc|Hc]; rewrite Hc; [cbn; lia|].
           rewrite len_app_one. lia.
      * right. exists (batch st ++ [lead]). split; [reflexivity|].
        rewrite len_app_one. lia.
    + rewrite Hb, Hs in *. rewrite len_app_one in *. split; [lia|left; reflexivity].
  - apply (Hflush (set_timer false st)). exact Hle.
Qed.

(** A schedule of arrivals and timer ticks never makes the goroutine
    return, so a run over it can be continued. *)
Lemma run_feeding (pre : list Select) :
  feeding pre ->
  forall (rest : list Select) (st : Batcher),
    snd (run c nets send_ok pre st) = false /\
    run c nets send_ok (pre ++ rest) st =
      run c nets send_ok rest (fst (run c nets send_ok pre st)).
Proof.
  induction pre as [|sel pre IH]; intros Hf rest st.
  - split; reflexivity.
  - inversion Hf as [|? ? Hsel Hpre]; subst.
    cbn [app run].
    destruct sel as [| |lead|]; try contradiction; cbn [step];
      try (destruct (maxBatchSize <=? len (batch (accept lead st))));
      apply IH; exact Hpre.
Qed.

(** Records that arrive while there is room are appended, and nothing is
    submitted. *)
Lemma run_accumulates (leads : list Lead) :
  forall st,
    len (batch st) + len leads < maxBatchSize ->
    batch (fst (run c nets send_ok (map SelLead leads) st)) = batch st ++ leads /\
    submitted (fst (run c nets send_ok (map SelLead leads) st)) = submitted st /\
    (leads <> [] ->
     timer_armed (fst (run c nets send_ok (map SelLead leads) st)) = true \/
     (batch st <> [] /\
      timer_armed (fst (run c nets send_ok (map SelLead leads) st))
        = timer_armed st)).
Proof.
  induction leads as [|lead rest IH]; intros st Hroom.
  - cbn. rewrite app_nil_r. repeat split. congruence.
  - cbn [map run step].
    destruct (batch_accept lead st) as [Hb Hs].
    assert (Hl : len (lead :: rest) = 1 + len rest)
      by (unfold len; cbn [List.length]; lia).
    pose proof (len_nonneg rest) as Hr0. pose proof (len_nonneg (batch st)) as Hb0.
    destruct (Z.leb_spec maxBatchSize (len (batch (accept lead st)))) as [Hfull|_].
    { rewrite Hb, len_app_one in Hfull. lia. }
    destruct (IH (accept lead st)) as [Hb' [Hs' Ht']].
    { rewrite Hb, len_app_one. lia. }
    rewrite Hb', Hs', Hb, Hs, <- app_assoc. split; [reflexivity|].
    split; [reflexivity|]. intros _.
    assert (Hta : timer_armed (accept lead st) = true \/
                  (batch st <> [] /\ timer_armed (accept lead st) = timer_armed st)).
    { unfold accept. cbn [set_batch batch]. rewrite len_app_one.
      destruct (Z.eqb_spec (len (batch st) + 1) 1) as [E|E]; [left; reflexivity|].
      right. split; [|reflexivity]. intros Hn. rewrite Hn in E. cbn in E. lia. }
    destruct rest as [|r rest'].
    + cbn [map run fst]. exact Hta.
    + destruct Ht' as [Ht'|[_ Ht']]; [discriminate|left; exact Ht'|].
      rewrite Ht'. exact Hta.
Qed.
End BatcherRuns.

Section BatcherDelivered.
Context `{Externals}.
Variable c : Client.
Variable nets : nat -> Network.
Variable send_ok : nat -> bool.
Hypothesis delivered : always_delivered send_ok.

Lemma received_step (sel : Select) (rest : list Select) (st : Batcher) :
  snd (step c nets send_ok st sel) = false ->
  batch st ++ received (sel :: rest) = pending st sel ++ received rest.
Proof.
  destruct sel as [| |lead|]; cbn [step snd received pending];
    intros Hs; try discriminate Hs.
  - reflexivity.
  - rewrite <- app_assoc. reflexivity.
Qed.

Lemma step_conserves (st : Batcher) (sel : Select) :
  len (batch st) < maxBatchSize ->
  List.concat (submitted (fst (step c nets send_ok st sel)))
    ++ batch (fst (step c nets send_ok st sel))
  = List.concat (submitted st) ++ pending st sel.
Proof.
  intros Hlt. pose proof (step_flushes c nets send_ok st sel delivered Hlt) as Hs.
  cbn zeta in Hs. destruct (flush_due st sel); destruct Hs as [-> ->].
  - rewrite concat_app. cbn [List.concat]. rewrite !app_nil_r. reflexivity.
  - reflexivity.
Qed.

Lemma run_conserves (sched : list Select) :
  forall st,
    len (batch st) < maxBatchSize ->
    List.concat (submitted (fst (run c nets send_ok sched st)))
      ++ batch (fst (run c nets send_ok sched st))
    = List.concat (submitted st) ++ batch st ++ received sched.
Proof.
  induction sched as [|sel rest IH]; intros st Hlt.
  - cbn. rewrite app_nil_r. reflexivity.
  - cbn [run].
    pose proof (step_conserves st sel Hlt) as Hc.
    pose proof (step_keeps_room c nets send_ok st sel delivered Hlt) as Hroom.
    pose proof (received_step sel rest st) as Hrec.
    destruct (step c nets send_ok st sel) as [st1 fin] eqn:E.
    cbn [fst snd] in *. destruct fin.
    + cbn [fst]. rewrite Hc.
      destruct sel; cbn in E; inversion E; subst; cbn [received pending];
        try (rewrite app_nil_r; reflexivity).
      all: destruct (maxBatchSize <=? len (batch (accept lead st))); discriminate.
    + rewrite (IH st1 Hroom). rewrite app_assoc, Hc, <- app_assoc.
      rewrite (Hrec eq_refl). reflexivity.
Qed.

Lemma step_sizes (st : Batcher) (sel : Select) :
  len (batch st) < maxBatchSize ->
  Forall (fun b => 1 <= len b <= maxBatchSize) (submitted st) ->
  Forall (fun b => 1 <= len b <= maxBatchSize)
         (submitted (fst (step c nets send_ok st sel))).
Proof.
  intros Hlt Hf. pose proof (step_flushes c nets send_ok st sel delivered Hlt) as Hs.
  cbn zeta in Hs. destruct (flush_due st sel) eqn:Ed; destruct Hs as [-> _];
    [|exact Hf].
  apply Forall_app. split; [exact Hf|]. constructor; [|constructor].
  pose proof (len_nonneg (batch st)) as H0. unfold maxBatchSize in *.
  destruct sel as [| |lead|]; cbn [flush_due pending] in *.
  - discriminate Ed.
  - apply negb_true_iff, Z.eqb_neq in Ed. lia.
  - apply Z.eqb_eq in Ed. rewrite len_app_one. lia.
  - apply negb_true_iff, Z.eqb_neq in Ed. lia.
Qed.

Lemma run_sizes (sched : list Select) :
  forall st,
    len (batch st) < maxBatchSize ->
    Forall (fun b => 1 <= len b <= maxBatchSize) (submitted st) ->
    Forall (fun b => 1 <= len b <= maxBatchSize)
           (submitted (fst (run c nets send_ok sched st))).
Proof.
  induction sched as [|sel rest IH]; intros st Hlt Hf; [exact Hf|].
  cbn [run].
  pose proof (step_sizes st sel Hlt Hf) as Hs.
  pose proof (step_keeps_room c nets send_ok st sel delivered Hlt) as Hroom.
  destruct (step c nets send_ok st sel) as [st1 fin]. cbn [fst] in *.
  destruct fin; [exact Hs|]. apply IH; assumption.
Qed.

Lemma flush_timer_tracks (st : Batcher) :
  timer_tracks (flush c nets send_ok (set_timer false st)).
Proof.
  unfold timer_tracks. destruct (batch st) as [|l r] eqn:Eb.
  - rewrite flush_empty by exact Eb. cbn [set_timer timer_armed batch].
    rewrite Eb. split; [discriminate|congruence].
  - assert (Hne : batch (set_timer false st) <> []) by (cbn; congruence).
    destruct (flush_clears c nets send_ok _ Hne delivered) as [-> [_ ->]].
    cbn. split; [discriminate|congruence].
Qed.

Lemma step_timer_tracks (st : Batcher) (sel : Select) :
  timer_tracks st -> timer_tracks (fst (step c nets send_ok st sel)).
Proof.
  intros Ht. destruct sel as [| |lead|]; cbn [step fst].
  - exact Ht.
  - apply flush_timer_tracks.
  - destruct (maxBatchSize <=? len (batch (accept lead st))); cbn [fst].
    + apply flush_timer_tracks.
    + unfold timer_tracks, accept in *. cbn [set_batch batch].
      rewrite len_app_one.
      assert (Hne : batch st ++ [lead] <> [])
        by (intros Hn; apply app_eq_nil in Hn; destruct Hn; discriminate).
      destruct (Z.eqb_spec (len (batch st) + 1) 1) as [E|E];
        cbn [set_timer set_batch timer_armed batch].
      * split; [intros _; exact Hne|reflexivity].
      * split; [intros _; exact Hne|]. intros _. apply Ht.
        intros Hn. rewrite Hn in E. cbn in E. lia.
  - apply flush_timer_tracks.
Qed.

Lemma run_timer_tracks (sched : list Select) :
  forall st, timer_tracks st -> timer_tracks (fst (run c nets send_ok sched st)).
Proof.
  induction sched as [|sel rest IH]; intros st Ht; [exact Ht|].
  cbn [run]. pose proof (step_timer_tracks st sel Ht) as Hs.
  destruct (step c nets send_ok st sel) as [st1 fin]. cbn [fst] in *.
  destruct fin; [exact Hs|]. apply IH. exact Hs.
Qed.
End BatcherDelivered.

Lemma init_has_room : len (batch init) < maxBatchSize.
Proof. unfold maxBatchSize. cbn. lia. Qed.

Lemma received_feeding (pre : list Select) (tail : list Select) :
  feeding pre ->
  (match tail with
   | [] | SelCtxDone :: _ | SelClosed :: _ => True
   | _ => False
   end) ->
  received (pre ++ tail) = received pre.
Proof.
  intros Hf Ht. induction pre as [|sel pre IH]; cbn [app].
  - destruct tail as [|[| |l|] tl]; try contradiction; reflexivity.
  - inversion Hf as [|? ? Hsel Hpre]; subst.
    destruct sel; try contradiction; cbn [received]; rewrite (IH Hpre);
      reflexivity.
Qed.

(** X14.  As long as no send is pre-empted by cancellation, the batcher
    neither loses, nor duplicates, nor reorders a record: at any point of a
    run the batches submitted so far, laid end to end and followed by the
    pending batch, are exactly the records received so far, in the order of
    their arrival. *)
Theorem batcher_conserves_records `{Externals} :
  forall (c : Client) (nets : nat -> Network) (send_ok : nat -> bool)
         (sched : list Select),
    always_delivered send_ok ->
    List.concat (submitted (fst (run c nets send_ok sched init)))
      ++ batch (fst (run c nets send_ok sched init))
    = received sched.
Proof.
  intros c nets send_ok sched Hd.
  rewrite (run_conserves c nets send_ok Hd sched init init_has_room).
  reflexivity.
Qed.

Lemma batcher_conserves_records_witness :
  List.concat (submitted (fst (run (H := one_created_externals) (New "key" [])
                                   ok_nets (fun _ => true)
                                   [SelLead leadA; SelTimer; SelLead leadB;
                                    SelLead leadC; SelClosed] init)))
  = [leadA; leadB; leadC].
Proof.
  pose proof (batcher_conserves_records (H := one_created_externals)
                (New "key" []) ok_nets (fun _ => true)
                [SelLead leadA; SelTimer; SelLead leadB; SelLead leadC; SelClosed])
    as Hw.
  rewrite app_nil_r in Hw. apply Hw. intros k. reflexivity.
Defined.

(** X15.  [BulkCreate] is never handed an empty batch, and the pending batch
    never holds more than 100 records at the top of the loop, under any
    scheduling of cancellation; a submitted batch holds at most 101 records,
    and from 1 to 100 when no send is pre-empted by cancellation. *)
Theorem batcher_batch_sizes `{Externals} :
  forall (c : Client) (nets : nat -> Network) (send_ok : nat -> bool)
         (sched : list Select),
    len (batch (fst (run c nets send_ok sched init))) <= maxBatchSize /\
    Forall (fun b => 1 <= len b <= maxBatchSize + 1)
           (submitted (fst (run c nets send_ok sched init))) /\
    (always_delivered send_ok ->
     Forall (fun b => 1 <= len b <= maxBatchSize)
            (submitted (fst (run c nets send_ok sched init)))).
Proof.
  intros c nets send_ok sched.
  assert (Hany : forall sch st,
             len (batch st) <= maxBatchSize ->
             Forall (fun b => 1 <= len b <= maxBatchSize + 1) (submitted st) ->
             len (batch (fst (run c nets send_ok sch st))) <= maxBatchSize /\
             Forall (fun b => 1 <= len b <= maxBatchSize + 1)
                    (submitted (fst (run c nets send_ok sch st)))).
  { induction sch as [|sel rest IH]; intros st Hle Hf; [split; assumption|].
    cbn [run]. pose proof (step_any c nets send_ok st sel Hle) as Hs.
    cbn zeta in Hs. destruct Hs as [Hle1 Hsub].
    assert (Hf1 : Forall (fun b => 1 <= len b <= maxBatchSize + 1)
                         (submitted (fst (step c nets send_ok st sel)))).
    { destruct Hsub as [->|[b [-> Hb]]]; [exact Hf|].
      apply Forall_app. split; [exact Hf|]. constructor; [exact Hb|constructor]. }
    destruct (step c nets send_ok st sel) as [st1 fin]. cbn [fst] in *.
    destruct fin; [split; assumption|]. apply IH; assumption. }
  assert (H0 : len (batch init) <= maxBatchSize)
    by (unfold maxBatchSize; cbn; lia).
  destruct (Hany sched init H0 (Forall_nil _)) as [Hb Hs].
  split; [exact Hb|]. split; [exact Hs|].
  intros Hd. apply run_sizes; [exact Hd|exact init_has_room|constructor].
Qed.

Lemma batcher_batch_sizes_witness :
  Forall (fun b => 1 <= len b <= maxBatchSize)
         (submitted (fst (run (H := one_created_externals) (New "key" [])
                              ok_nets (fun _ => true)
                              [SelLead leadA; SelTimer; SelTimer; SelClosed] init))).
Proof.
  apply (batcher_batch_sizes (H := one_created_externals) (New "key" [])
           ok_nets (fun _ => true) [SelLead leadA; SelTimer; SelTimer; SelClosed]).
  intros k. reflexivity.
Defined.

(** X16.  When the input closes, the goroutine submits what is pending and
    returns: as long as no send is pre-empted by cancellation, every record
    received before the close has then been submitted, in order, and the
    batch is empty. *)
Theorem batcher_flushes_on_close `{Externals} :
  forall (c : Client) (nets : nat -> Network) (send_ok : nat -> bool)
         (pre post : list Select),
    always_delivered send_ok ->
    feeding pre ->
    snd (run c nets send_ok (pre ++ SelClosed :: post) init) = true /\
    batch (fst (run c nets send_ok (pre ++ SelClosed :: post) init)) = [] /\
    List.concat (submitted (fst (run c nets send_ok (pre ++ SelClosed :: post) init)))
      = received pre.
Proof.
  intros c nets send_ok pre post Hd Hf.
  pose proof (run_conserves c nets send_ok Hd (pre ++ SelClosed :: post) init
                init_has_room) as Hc.
  rewrite (received_feeding pre (SelClosed :: post) Hf I) in Hc.
  destruct (run_feeding c nets send_ok pre Hf (SelClosed :: post) init)
    as [_ Happ].
  rewrite Happ in *. cbn [run step] in *. cbn [fst snd] in *.
  assert (Hb : batch (flush c nets send_ok
                        (set_timer false (fst (run c nets send_ok pre init)))) = []).
  { destruct (batch (fst (run c nets send_ok pre init))) as [|l r] eqn:Eb.
    - rewrite flush_empty by exact Eb. exact Eb.
    - apply flush_clears; [cbn; congruence|exact Hd]. }
  split; [reflexivity|]. split; [exact Hb|].
  rewrite Hb, app_nil_r in Hc. exact Hc.
Qed.

Lemma batcher_flushes_on_close_witness :
  submitted (fst (run (H := one_created_externals) (New "key" []) ok_nets
                      (fun _ => true)
                      ([SelLead leadA; SelLead leadB] ++ SelClosed :: [SelLead leadC])
                      init))
  = [[leadA; leadB]].
Proof.
  destruct (batcher_flushes_on_close (H := one_created_externals) (New "key" [])
              ok_nets (fun _ => true) [SelLead leadA; SelLead leadB]
              [SelLead leadC]) as [_ [_ Hsub]].
  - intros k. reflexivity.
  - repeat constructor.
  - reflexivity.
Defined.

(** X17.  As long as no send is pre-empted by cancellation, the inactivity
    timer is armed exactly while records are pending: in every state the
    goroutine reaches at the top of its loop, the timer is armed if and only
    if the batch is not empty. *)
Theorem batcher_timer_tracks_batch `{Externals} :
  forall (c : Client) (nets : nat -> Network) (send_ok : nat -> bool)
         (st : Batcher),
    always_delivered send_ok ->
    reachable c nets send_ok st ->
    (timer_armed st = true <-> batch st <> []).
Proof.
  intros c nets send_ok st Hd [sched Hrun].
  assert (Hi : timer_tracks init)
    by (unfold timer_tracks; cbn; split; [discriminate|congruence]).
  pose proof (run_timer_tracks c nets send_ok Hd sched init Hi) as Ht.
  rewrite Hrun in Ht. exact Ht.
Qed.

Lemma batcher_timer_tracks_batch_witness :
  timer_armed (fst (run (H := one_created_externals) (New "key" []) ok_nets
                        (fun _ => true) [SelLead leadA; SelTimer; SelLead leadB]
                        init)) = true.
Proof.
  apply (batcher_timer_tracks_batch (H := one_created_externals) (New "key" [])
           ok_nets (fun _ => true)).
  - intros k. reflexivity.
  - exists [SelLead leadA; SelTimer; SelLead leadB]. reflexivity.
  - discriminate.
Defined.

(** X18.  When the main [select] sees the context done, the goroutine
    returns at once: the pending records are abandoned without being
    submitted, and nothing that is scheduled afterwards has any effect. *)
Theorem batcher_cancel_abandons `{Externals} :
  forall (c : Client) (nets : nat -> Network) (send_ok : nat -> bool)
         (pre post : list Select),
    feeding pre ->
    run c nets send_ok (pre ++ SelCtxDone :: post) init
      = (fst (run c nets send_ok pre init), true).
Proof.
  intros c nets send_ok pre post Hf.
  destruct (run_feeding c nets send_ok pre Hf (SelCtxDone :: post) init)
    as [_ ->].
  reflexivity.
Qed.

Lemma batcher_cancel_abandons_witness :
  let st := fst (run (H := one_created_externals) (New "key" []) ok_nets
                     (fun _ => true)
                     ([SelLead leadA; SelLead leadB] ++ SelCtxDone :: [SelClosed])
                     init) in
  batch st = [leadA; leadB] /\ submitted st = [].
Proof.
  cbv zeta.
  rewrite (batcher_cancel_abandons (H := one_created_externals) (New "key" [])
             ok_nets (fun _ => true) [SelLead leadA; SelLead leadB] [SelClosed]).
  - split; reflexivity.
  - repeat constructor.
Defined.

(** X19.  Feeding exactly 100 records without a gap submits exactly one
    batch, made of these 100 records in order, and leaves the batch empty
    and the timer disarmed, as long as no send is pre-empted by
    cancellation. *)
Theorem batcher_hundred_records `{Externals} :
  forall (c : Client) (nets : nat -> Network) (send_ok : nat -> bool)
         (leads : list Lead),
    always_delivered send_ok ->
    len leads = maxBatchSize ->
    let st := fst (run c nets send_ok (map SelLead leads) init) in
    submitted st = [leads] /\ batch st = [] /\ timer_armed st = false.
Proof.
  intros c nets send_ok leads Hd Hlen st.
  assert (Hsplit : exists front last, leads = front ++ [last]).
  { destruct (exists_last (l := leads)) as [front [last Hl]].
    - intros Hn. rewrite Hn in Hlen. unfold maxBatchSize in Hlen. cbn in Hlen. lia.
    - exists front, last. exact Hl. }
  destruct Hsplit as [front [last Hl]].
  assert (Hfront : len front = maxBatchSize - 1)
    by (rewrite Hl, len_app_one in Hlen; lia).
  assert (Hfeed : feeding (map SelLead front)).
  { unfold feeding. apply Forall_forall. intros sel Hin.
    apply in_map_iff in Hin. destruct Hin as [l [<- _]]. exact I. }
  destruct (run_accumulates c nets send_ok front init) as [Hb [Hs _]].
  { unfold maxBatchSize in *. cbn. lia. }
  cbn [init batch submitted app] in Hb, Hs.
  assert (Hst : st = fst (step c nets send_ok
                            (fst (run c nets send_ok (map SelLead front) init))
                            (SelLead last))).
  { unfold st. rewrite Hl, map_app. change (map SelLead [last]) with [SelLead last].
    destruct (run_feeding c nets send_ok (map SelLead front) Hfeed
                [SelLead last] init) as [_ ->].
    cbn [map run].
    destruct (step c nets send_ok
                (fst (run c nets send_ok (map SelLead front) init))
                (SelLead last)) as [st1 fin] eqn:E.
    destruct fin; reflexivity. }
  assert (Hroom : len (batch (fst (run c nets send_ok (map SelLead front) init)))
                  < maxBatchSize) by (rewrite Hb; lia).
  pose proof (step_flushes c nets send_ok _ (SelLead last) Hd Hroom) as Hstep.
  cbn zeta in Hstep. cbn [flush_due pending] in Hstep.
  rewrite Hb, Hs in Hstep.
  replace (len front + 1 =? maxBatchSize) with true in Hstep
    by (symmetry; apply Z.eqb_eq; lia).
  rewrite <- Hst in Hstep. destruct Hstep as [Hsub Hbatch].
  split; [rewrite Hsub, Hl; reflexivity|]. split; [exact Hbatch|].
  assert (Hi : timer_tracks init)
    by (unfold timer_tracks; cbn; split; [discriminate|congruence]).
  pose proof (run_timer_tracks c nets send_ok Hd (map SelLead leads) init Hi) as Ht.
  fold st in Ht. unfold timer_tracks in Ht. rewrite Hbatch in Ht.
  destruct (timer_armed st); [|reflexivity].
  exfalso. apply (proj1 Ht); reflexivity.
Qed.

Lemma batcher_hundred_records_witness :
  submitted (fst (run (H := one_created_externals) (New "key" []) ok_nets
                      (fun _ => true) (map SelLead (repeat leadA 100)) init))
  = [repeat leadA 100].
Proof.
  apply (batcher_hundred_records (H := one_created_externals) (New "key" [])
           ok_nets (fun _ => true) (repeat leadA 100)).
  - intros k. reflexivity.
  - reflexivity.
Defined.

(** X20.  With a maximum retry count of zero or less the batcher swallows
    its records: a flush of a well-formed batch whose body marshals calls
    [BulkCreate], which contacts nobody and returns a zero-value result, so
    that the batch is cleared and neither a result nor an error is
    delivered. *)
Theorem flush_without_attempts `{Externals} :
  forall (c0 : Client) (n : Z) (nets : nat -> Network) (send_ok : nat -> bool)
         (st : Batcher) (data : string),
    n <= 0 ->
    batch st <> [] ->
    len (batch st) <= maxBatchSize ->
    Forall valid_lead (batch st) ->
    json_Marshal (BodyLeads (batch st)) = inr data ->
    BulkCreate (WithMaxRetries n c0) (nets (calls st)) (batch st)
      = (inr zero_BulkCreateResult, []) /\
    flush (WithMaxRetries n c0) nets send_ok st =
      mkBatcher [] (timer_armed st) (results st) (errs st) (S (calls st))
                (sends st) (submitted st ++ [batch st]).
Proof.
  intros c0 n nets send_ok st data Hn Hb Hlen Hvalid Hm.
  assert (Hbulk : BulkCreate (WithMaxRetries n c0) (nets (calls st)) (batch st)
                  = (inr zero_BulkCreateResult, [])).
  { unfold BulkCreate.
    destruct (Z.eqb_spec (len (batch st)) 0) as [E|E];
      [apply len_zero_nil in E; contradiction|].
    destruct (Z.ltb_spec maxBatchSize (len (batch st))); [lia|].
    apply validate_leads_none with (i := 0) in Hvalid. rewrite Hvalid.
    rewrite do_no_pass by exact Hn. unfold marshal. rewrite Hm. reflexivity. }
  split; [exact Hbulk|].
  unfold flush. destruct (batch st) as [|lead rest] eqn:Eb; [congruence|].
  rewrite Hbulk. cbn. unfold set_batch, called. cbn. rewrite Eb. reflexivity.
Qed.

Lemma flush_without_attempts_witness :
  let st := mkBatcher [leadA; leadB] true [] [] 0 0 [] in
  flush (H := one_created_externals) (WithMaxRetries 0 (New "key" [])) ok_nets
        (fun _ => true) st
  = mkBatcher [] true [] [] 1 0 [[leadA; leadB]].
Proof.
  intros st.
  destruct (flush_without_attempts (H := one_created_externals) (New "key" []) 0
              ok_nets (fun _ => true) st "{}") as [_ Hf].
  - lia.
  - discriminate.
  - unfold len, maxBatchSize. cbn. lia.
  - repeat constructor; discriminate.
  - reflexivity.
  - exact Hf.
Defined.

(** ** Export *)

(** X21.  [Export] is not routed through the retry loop: it sends at most
    one request and never waits, whatever the status and whatever
    [maxRetries] is, and an empty format stands for csv.  For a response
    outside 2xx, transient or not, it returns at once an [APIError] that
    carries the status and no retry-after hint. *)
Theorem Export_never_retries `{Externals} :
  forall (c : Client) (trip : ExportTrip) (format : string),
    (requests (snd (Export c trip format)) <= 1)%nat /\
    waits (snd (Export c trip format)) = 0%nat /\
    (forall n, Export (WithMaxRetries n c) trip format = Export c trip format) /\
    Export c trip "" = Export c trip "csv" /\
    (forall status body,
       trip = ExportResponse status body ->
       is_2xx status = false ->
       http_NewRequest http.MethodPost
         (baseURL c +++ "/leads/export?format=" +++
          (if String.eqb format "" then "csv" else format)) = None ->
       exists e,
         fst (Export c trip format) = inl (ErrAPI e) /\
         StatusCode e = status /\ RetryAfter e = 0 /\
         requests (snd (Export c trip format)) = 1%nat).
Proof.
  intros c trip format. unfold Export.
  split; [|split; [|split; [|split]]].
  - destruct (http_NewRequest _ _); [cbn; lia|].
    destruct trip as [err|status body]; [cbn; lia|].
    destruct (is_2xx status); cbn; lia.
  - destruct (http_NewRequest _ _); [reflexivity|].
    destruct trip as [err|status body]; [reflexivity|].
    destruct (is_2xx status); reflexivity.
  - intros n. reflexivity.
  - reflexivity.
  - intros status body -> H2xx Hreq. rewrite Hreq, H2xx.
    eexists. cbn [fst snd]. repeat split.
Qed.

Lemma Export_never_retries_witness :
  Export (H := plain_externals) (New "key" []) (ExportResponse 503 "") ""
  = (inl (ErrAPI (mkAPIError 503 "" "status 503" 0)),
     [EvRequest 0 "POST" "https://getleadsdb.com/api/v1/leads/export?format=csv"
                None]).
Proof.
  destruct (Export_never_retries (H := plain_externals) (New "key" [])
              (ExportResponse 503 "") "") as [_ [_ [_ [_ Hw]]]].
  destruct (Hw 503 "") as [e [He _]]; reflexivity.
Defined.

(** ** Push-based fetcher *)

Section ChannelFacts.
Variable send_ok : nat -> bool.

Lemma deliver_prefix (evs : list PageEvent) :
  forall k, exists m,
    fst (deliver send_ok evs k) = firstn m (leads_of (produced evs)).
Proof.
  induction evs as [|ev evs IH]; intros k.
  - exists 0%nat. reflexivity.
  - destruct ev as [n o|[lead|err]]; cbn [deliver].
    + destruct (IH k) as [m Hm]. exists m. exact Hm.
    + destruct (send_ok k); [|exists 0%nat; reflexivity].
      destruct (IH (S k)) as [m Hm]. exists (S m). cbn [fst]. rewrite Hm.
      reflexivity.
    + exists 0%nat. destruct (send_ok k); reflexivity.
Qed.

Lemma deliver_one_error (evs : list PageEvent) :
  forall k, (List.length (snd (deliver send_ok evs k)) <= 1)%nat.
Proof.
  induction evs as [|ev evs IH]; intros k.
  - cbn. lia.
  - destruct ev as [n o|[lead|err]]; cbn [deliver].
    + apply IH.
    + destruct (send_ok k); [cbn [snd]; apply IH|cbn; lia].
    + destruct (send_ok k); cbn; lia.
Qed.

Lemma deliver_all (evs : list PageEvent) :
  always_delivered send_ok ->
  (forall ev, In ev evs -> ~ is_error_item ev) ->
  forall k,
    deliver send_ok evs k = (leads_of (produced evs), []) /\
    errors_of (produced evs) = [].
Proof.
  intros Hd. induction evs as [|ev evs IH]; intros Hno k.
  - split; reflexivity.
  - assert (Hno' : forall ev', In ev' evs -> ~ is_error_item ev')
      by (intros ev' Hin; apply Hno; right; exact Hin).
    destruct ev as [n o|[lead|err]]; cbn [deliver].
    + apply (IH Hno' k).
    + rewrite Hd. destruct (IH Hno' (S k)) as [-> He]. split; [reflexivity|exact He].
    + exfalso. apply (Hno (EvYield (ItemErr err))); [left; reflexivity|].
      exists err. reflexivity.
Qed.

Lemma deliver_all_then_error (pre : list PageEvent) (err : error) :
  always_delivered send_ok ->
  (forall ev, In ev pre -> ~ is_error_item ev) ->
  forall k,
    deliver send_ok (pre ++ [EvYield (ItemErr err)]) k
      = (leads_of (produced (pre ++ [EvYield (ItemErr err)])),
         errors_of (produced (pre ++ [EvYield (ItemErr err)]))).
Proof.
  intros Hd. induction pre as [|ev pre IH]; intros Hno k.
  - cbn. rewrite Hd. reflexivity.
  - assert (Hno' : forall ev', In ev' pre -> ~ is_error_item ev')
      by (intros ev' Hin; apply Hno; right; exact Hin).
    destruct ev as [n o|[lead|e0]]; cbn [app deliver].
    + apply (IH Hno' k).
    + rewrite Hd. rewrite (IH Hno' (S k)). reflexivity.
    + exfalso. apply (Hno (EvYield (ItemErr e0))); [left; reflexivity|].
      exists e0. reflexivity.
Qed.

Lemma error_item_or_not (evs : list PageEvent) :
  (forall ev, In ev evs -> ~ is_error_item ev) \/
  (exists ev, In ev evs /\ is_error_item ev).
Proof.
  induction evs as [|ev evs [IH|[ev' [Hin He]]]].
  - left. intros ev [].
  - destruct ev as [n o|[lead|err]].
    + left. intros ev' [<-|Hin]; [intros [e He]; discriminate|apply IH; exact Hin].
    + left. intros ev' [<-|Hin]; [intros [e He]; discriminate|apply IH; exact Hin].
    + right. exists (EvYield (ItemErr err)). split; [left; reflexivity|].
      exists err. reflexivity.
  - right. exists ev'. split; [right; exact Hin|exact He].
Qed.
End ChannelFacts.

(** X22.  The push-based fetcher delivers on its leads outlet a prefix of
    the records the paged fetcher hands over, in the same order, and on its
    errors outlet at most one error, so that the one slot of that outlet's
    buffer is enough; when no send is pre-empted by cancellation it delivers
    all of the records and the error, if there is one. *)
Theorem IteratorChan_delivers `{Externals} :
  forall (c : Client) (nets : nat -> Network) (send_ok : nat -> bool)
         (opts : list ListOption) (fuel : nat),
    (exists m,
       fst (IteratorChan c nets send_ok opts fuel) =
         firstn m (leads_of (produced (fst (iterate c nets send_ok opts fuel))))) /\
    (List.length (snd (IteratorChan c nets send_ok opts fuel)) <= 1)%nat /\
    (always_delivered send_ok ->
     IteratorChan c nets send_ok opts fuel =
       (leads_of (produced (fst (iterate c nets send_ok opts fuel))),
        errors_of (produced (fst (iterate c nets send_ok opts fuel))))).
Proof.
  intros c nets send_ok opts fuel. unfold IteratorChan.
  split; [apply deliver_prefix|]. split; [apply deliver_one_error|].
  intros Hd.
  destruct (error_item_or_not (fst (iterate c nets send_ok opts fuel)))
    as [Hno|[ev [Hin He]]].
  - destruct (deliver_all send_ok _ Hd Hno 0%nat) as [-> ->]. reflexivity.
  - destruct (iterate_from_error_last c nets send_ok opts fuel 0%nat "" 0%nat
                ev Hin He) as [pre [Hpre [_ Hno]]].
    unfold iterate. rewrite Hpre. destruct He as [err ->].
    apply deliver_all_then_error; assumption.
Qed.

Lemma IteratorChan_delivers_witness :
  IteratorChan (H := two_page_externals) (New "key" []) two_page_nets
               (fun _ => true) [Limit 2] 5
  = ([leadA; leadB; leadC], []).
Proof.
  destruct (IteratorChan_delivers (H := two_page_externals) (New "key" [])
              two_page_nets (fun _ => true) [Limit 2] 5) as [_ [_ Hall]].
  rewrite Hall; [reflexivity|]. intros k. reflexivity.
Defined.

(** ** UnixTime *)

Lemma to_int_proper (z : Z) :
  Z.to_int z <> Decimal.Pos Decimal.Nil /\ Z.to_int z <> Decimal.Neg Decimal.Nil.
Proof.
  destruct z as [|p|p]; cbn; split; intros E; try discriminate;
    inversion E as [E']; exact (DecimalPos.Unsigned.to_uint_nonnil p E').
Qed.

Lemma int_of_string_fmt_d (z : Z) :
  NilZero.int_of_string (fmt_d z) = Some (Z.to_int z).
Proof.
  unfold fmt_d. destruct (to_int_proper z) as [Hp Hn].
  apply NilZero.isi; assumption.
Qed.

Lemma ParseInt_FormatInt (z : Z) :
  - 2 ^ 63 <= z < 2 ^ 63 ->
  strconv_ParseInt (strconv_FormatInt z) = Some z.
Proof.
  intros Hz. pose proof (int_of_string_fmt_d z) as Hi.
  unfold strconv_ParseInt, strconv_FormatInt.
  destruct (fmt_d z) as [|a rest] eqn:Es; [discriminate|].
  destruct (String.eqb_spec (String a "") "+") as [Hplus|Hne].
  - exfalso. inversion Hplus; subst a. cbn in Hi.
    destruct (NilEmpty.uint_of_string rest); discriminate.
  - rewrite Hi. cbn [option_map]. rewrite DecimalZ.of_to.
    destruct (Z.leb_spec (- 2 ^ 63) z); [|lia].
    destruct (Z.ltb_spec z (2 ^ 63)); [reflexivity|lia].
Qed.

Lemma FormatInt_not_null (z : Z) :
  String.eqb (strconv_FormatInt z) "null" = false /\
  Nat.eqb (String.length (strconv_FormatInt z)) 0 = false.
Proof.
  pose proof (int_of_string_fmt_d z) as Hi. unfold strconv_FormatInt. split.
  - apply String.eqb_neq. intros E. rewrite E in Hi. discriminate.
  - destruct (fmt_d z); [discriminate|reflexivity].
Qed.

(** X23.  Encoding a [UnixTime] and decoding the bytes again keeps the
    instant up to the second: a zero time is written as [null], which
    leaves the receiver as it was; any other time is written as its Unix
    seconds in decimal and read back as the time of these seconds, without
    the nanoseconds. *)
Theorem UnixTime_round_trip :
  forall t receiver : Time,
    - 2 ^ 63 <= unix_seconds t < 2 ^ 63 ->
    UnixTime_UnmarshalJSON (UnixTime_MarshalJSON t) receiver =
      inr (if Time_IsZero t then receiver else time_Unix (unix_seconds t)).
Proof.
  intros t receiver Hr. unfold UnixTime_MarshalJSON, UnixTime_UnmarshalJSON.
  destruct (Time_IsZero t); [reflexivity|].
  destruct (FormatInt_not_null (unix_seconds t)) as [-> ->]. cbn [orb].
  rewrite (ParseInt_FormatInt _ Hr). reflexivity.
Qed.

Lemma UnixTime_round_trip_witness :
  UnixTime_UnmarshalJSON (UnixTime_MarshalJSON (mkTime 1700000000 123456789))
                         (mkTime zero_unix_seconds 0)
  = inr (mkTime 1700000000 0).
Proof.
  apply (UnixTime_round_trip (mkTime 1700000000 123456789)
                             (mkTime zero_unix_seconds 0)).
  cbn. lia.
Defined.

(** ** Executor: unreadable bodies *)

(** X24.  A response whose body cannot be read ends [do] at once with the
    read error, whatever its status: even a 503 or a 429 is not retried
    then, and no wait follows. *)
Theorem do_read_failure_terminal `{Externals} {R : Type} :
  forall (c : Client) (net : Network) (method path : string)
         (body : option Body) (decode : option (string -> error + R))
         (bodyData : option string) (k : nat) (status : Z) (err : error),
    marshal body = inr bodyData ->
    http_NewRequest method (baseURL c +++ path) = None ->
    Z.of_nat k < maxRetries c ->
    (forall i, 0 <= i < Z.of_nat k ->
       ctx_Err (net i) = None /\ retriable_failure (round_trip (net i)) <> None) ->
    ctx_Err (net (Z.of_nat k)) = None ->
    round_trip (net (Z.of_nat k)) = ReadFailure status err ->
    fst (do c net method path body decode) = Fail err /\
    requests (snd (do c net method path body decode)) = S k /\
    waits (snd (do c net method path body decode)) = k.
Proof.
  intros c net method path body decode bodyData k status err
         Hm Hreq Hk Hall Hctx Hrt.
  unfold do. rewrite Hm.
  assert (Hsplit : Z.to_nat (maxRetries c)
                   = (k + S (Z.to_nat (maxRetries c) - S k))%nat) by lia.
  rewrite Hsplit.
  destruct (do_loop_retries c net method path bodyData decode k
              (S (Z.to_nat (maxRetries c) - S k)) 0 None Hreq)
    as [evs [e' [Hrun [Hr Hw]]]].
  { intros i Hi. apply Hall. lia. }
  rewrite Hrun. cbn [do_loop Z.add]. rewrite Hctx, Hreq, Hrt.
  match goal with
  | |- context [after evs ?run] =>
      destruct (counts_after evs run) as [Hcr Hcw]
  end.
  rewrite Hcr, Hcw, Hr, Hw. cbn. repeat split; lia.
Qed.

Lemma do_read_failure_terminal_witness :
  do (H := plain_externals) (R := Lead) (New "key" []) broken_body
     http.MethodGet "/leads/7" None
     (Some (@json_Unmarshal_Lead plain_externals))
  = (Fail (ErrExt "unexpected EOF"),
     [EvRequest 0 "GET" "https://getleadsdb.com/api/v1/leads/7" None]).
Proof.
  destruct (do_read_failure_terminal (H := plain_externals) (R := Lead)
              (New "key" []) broken_body http.MethodGet "/leads/7" None
              (Some (@json_Unmarshal_Lead plain_externals)) None 0%nat 503
              (ErrExt "unexpected EOF")) as [Hres _].
  - reflexivity.
  - reflexivity.
  - reflexivity.
  - intros i Hi. cbn in Hi. lia.
  - reflexivity.
  - reflexivity.
  - reflexivity.
Defined.
